(** * memes-gifs: the feed engine (js/app.js) and the theme manager (js/theme.js)

    A shallow embedding of the two classes of the repository, [MemeApp] and
    [ThemeManager], and the properties of the feed engine that follow from
    the code: deduplication, the failure streak and exhaustion, the overlap
    guard, reload, the empty initial load, the shuffle and the theme
    preference.

    Conventions of the embedding.
    - A JavaScript [Set] of strings is a [gset string]; arrays are lists,
      indexed with stdpp's lookup and insert.
    - Every method is a function on the record [MemeApp] of the instance
      fields together with the parts of the DOM the class writes to.
    - An [async] method is a resumption ([Async]): it runs to its first
      [await], hands back the state it suspended in and the continuation
      that the fetch result resumes.  Handlers that run in between act on
      that state.
    - A thrown exception is the [Throw] outcome of [Res]. *)

From Stdlib Require Import ZArith Factorial.
From stdpp Require Import list gmap strings.

Set Default Proof Using "Type".
Set Warnings "-clear-no-such-hyp".

Open Scope string_scope.
Open Scope list_scope.
Open Scope nat_scope.

(** ** Upstream records and items *)

(** One entry of [data.memes] as the upstream API sends it.  The fields the
    code reads are [postLink], [title], [subreddit], [url], [ups], [author]
    and [nsfw]; [ups] is the one whose absence matters to the code
    ([formatNumber] calls [num.toString()]), so it is optional here. *)
Record Post := {
  postLink : string;
  post_title : string;
  post_subreddit : string;
  url : string;
  ups : option Z;
  post_author : string;
  nsfw : bool
}.

(** The object pushed by [parseMemes]. *)
Record Item := {
  id : string;
  title : string;
  source : string;
  imageUrl : string;
  upvotes : option Z;
  permalink : string;
  author : string
}.

(** The parsed JSON body of a response: [memes] may be missing. *)
Record Data := { memes : option (list Post) }.

(** What [fetchMemes] resolves to: [None] is the [null] of its [catch]
    branch (transport error, non-ok status, unparsable body). *)
Definition FetchResult := option Data.

Global Instance Post_eq_dec : EqDecision Post.
Proof. solve_decision. Defined.
Global Instance Item_eq_dec : EqDecision Item.
Proof. solve_decision. Defined.

(** ** Outcomes and the DOM *)

Inductive Res (A : Type) : Type :=
| Ok (a : A)
| Throw (error : string).
Arguments Ok {A} a.
Arguments Throw {A} error.

(** Children of the [#feed] element.  The error card carries the text of
    [showError] and the handler of its "Try Again" button. *)
Inductive Action := CallReloadFeed.

Inductive Card :=
| SkeletonCard
| MemeCard (meme : Item)
| ErrorMessage (message : string) (onclick : Action).

(** The instance fields of [MemeApp] and the DOM state it writes:
    [feed] is the list of children of [#feed], [loadingIndicator] is
    whether the indicator has the class [active], [endMessage] whether the
    end message has [display: block].  [sink] records every item handed to
    [feed.appendChild] through [createMemeCard], oldest first; no method
    reads it. *)
Record MemeApp := {
  feed : list Card;
  loadingIndicator : bool;
  endMessage : bool;
  isLoading : bool;
  hasMore : bool;
  currentSubredditIndex : nat;
  seenIds : gset string;
  failedAttempts : nat;
  itemsPerPage : nat;
  sink : list Item
}.

Definition subreddits : list string :=
  ["ProgrammerHumor"; "programmingmemes"; "codingmemes"].

Definition maxFailedAttempts : nat := 3.

(** Field updates. *)
Definition set_feed (v : list Card) (st : MemeApp) : MemeApp :=
  {| feed := v; loadingIndicator := loadingIndicator st;
     endMessage := endMessage st; isLoading := isLoading st;
     hasMore := hasMore st;
     currentSubredditIndex := currentSubredditIndex st;
     seenIds := seenIds st; failedAttempts := failedAttempts st;
     itemsPerPage := itemsPerPage st; sink := sink st |}.

Definition set_loadingIndicator (v : bool) (st : MemeApp) : MemeApp :=
  {| feed := feed st; loadingIndicator := v;
     endMessage := endMessage st; isLoading := isLoading st;
     hasMore := hasMore st;
     currentSubredditIndex := currentSubredditIndex st;
     seenIds := seenIds st; failedAttempts := failedAttempts st;
     itemsPerPage := itemsPerPage st; sink := sink st |}.

Definition set_endMessage (v : bool) (st : MemeApp) : MemeApp :=
  {| feed := feed st; loadingIndicator := loadingIndicator st;
     endMessage := v; isLoading := isLoading st;
     hasMore := hasMore st;
     currentSubredditIndex := currentSubredditIndex st;
     seenIds := seenIds st; failedAttempts := failedAttempts st;
     itemsPerPage := itemsPerPage st; sink := sink st |}.

Definition set_isLoading (v : bool) (st : MemeApp) : MemeApp :=
  {| feed := feed st; loadingIndicator := loadingIndicator st;
     endMessage := endMessage st; isLoading := v;
     hasMore := hasMore st;
     currentSubredditIndex := currentSubredditIndex st;
     seenIds := seenIds st; failedAttempts := failedAttempts st;
     itemsPerPage := itemsPerPage st; sink := sink st |}.

Definition set_hasMore (v : bool) (st : MemeApp) : MemeApp :=
  {| feed := feed st; loadingIndicator := loadingIndicator st;
     endMessage := endMessage st; isLoading := isLoading st;
     hasMore := v;
     currentSubredditIndex := currentSubredditIndex st;
     seenIds := seenIds st; failedAttempts := failedAttempts st;
     itemsPerPage := itemsPerPage st; sink := sink st |}.

Definition set_currentSubredditIndex (v : nat) (st : MemeApp) : MemeApp :=
  {| feed := feed st; loadingIndicator := loadingIndicator st;
     endMessage := endMessage st; isLoading := isLoading st;
     hasMore := hasMore st;
     currentSubredditIndex := v;
     seenIds := seenIds st; failedAttempts := failedAttempts st;
     itemsPerPage := itemsPerPage st; sink := sink st |}.

Definition set_seenIds (v : gset string) (st : MemeApp) : MemeApp :=
  {| feed := feed st; loadingIndicator := loadingIndicator st;
     endMessage := endMessage st; isLoading := isLoading st;
     hasMore := hasMore st;
     currentSubredditIndex := currentSubredditIndex st;
     seenIds := v; failedAttempts := failedAttempts st;
     itemsPerPage := itemsPerPage st; sink := sink st |}.

Definition set_failedAttempts (v : nat) (st : MemeApp) : MemeApp :=
  {| feed := feed st; loadingIndicator := loadingIndicator st;
     endMessage := endMessage st; isLoading := isLoading st;
     hasMore := hasMore st;
     currentSubredditIndex := currentSubredditIndex st;
     seenIds := seenIds st; failedAttempts := v;
     itemsPerPage := itemsPerPage st; sink := sink st |}.

Definition set_sink (v : list Item) (st : MemeApp) : MemeApp :=
  {| feed := feed st; loadingIndicator := loadingIndicator st;
     endMessage := endMessage st; isLoading := isLoading st;
     hasMore := hasMore st;
     currentSubredditIndex := currentSubredditIndex st;
     seenIds := seenIds st; failedAttempts := failedAttempts st;
     itemsPerPage := itemsPerPage st; sink := v |}.

(** ** [calculateItemsPerPage]

    [Math.floor(Math.max(6, Math.min(20, Math.ceil(h / 600) * 2.5)))] for an
    integral pixel height [h]: the product by 2.5 is [5 * c / 2], and the
    floor commutes with the clamp to integer bounds. *)
Definition calculateItemsPerPage (screenHeight : Z) : nat :=
  let cardsPerScreen := (- ((- screenHeight) / 600))%Z in
  Z.to_nat (Z.max 6 (Z.min 20 ((5 * cardsPerScreen) / 2))).

(** ** [parseMemes] *)

Definition mkItem (post : Post) : Item :=
  {| id := postLink post;
     title := post_title post;
     source := "r/" +:+ post_subreddit post;
     imageUrl := url post;
     upvotes := ups post;
     permalink := postLink post;
     author := post_author post |}.

(** The [for (const post of data.memes)] loop, on the ledger and the array
    [memes] being built. *)
Fixpoint parseMemes_loop (posts : list Post) (seen : gset string)
    (acc : list Item) : gset string * list Item :=
  match posts with
  | [] => (seen, acc)
  | post :: rest =>
      if bool_decide (postLink post ∈ seen) then parseMemes_loop rest seen acc
      else if nsfw post then parseMemes_loop rest seen acc
      else parseMemes_loop rest ({[postLink post]} ∪ seen)
             (acc ++ [mkItem post])
  end.

Definition parseMemes (data : FetchResult) (subreddit : string)
    (st : MemeApp) : list Item * MemeApp :=
  match data with
  | None => ([], st)
  | Some d =>
      match memes d with
      | None => ([], st)
      | Some posts =>
          let '(seen, out) := parseMemes_loop posts (seenIds st) [] in
          (out, set_seenIds seen st)
      end
  end.

(** ** Synchronous code: state and exceptions

    A synchronous piece of a method transforms the application state and
    either completes or throws; what it wrote before throwing stays. *)
Definition M (A : Type) : Type := MemeApp → Res A * MemeApp.

Definition ret {A} (a : A) : M A := λ st, (Ok a, st).

Definition bind {A B} (m : M A) (k : A → M B) : M B :=
  λ st, match m st with
        | (Ok a, st1) => k a st1
        | (Throw e, st1) => (Throw e, st1)
        end.

Definition gets {A} (f : MemeApp → A) : M A := λ st, (Ok (f st), st).

Definition modify (f : MemeApp → MemeApp) : M unit := λ st, (Ok tt, f st).

(** [try { body } catch (error) { handler }] *)
Definition try_catch {A} (body : M A) (handler : string → M A) : M A :=
  λ st, match body st with
        | (Ok a, st1) => (Ok a, st1)
        | (Throw e, st1) => handler e st1
        end.

Definition lift {A} (r : Res A) : M A := λ st, (r, st).

(** A call of a method that is a plain function of the state. *)
Definition call {A} (f : MemeApp → A * MemeApp) : M A :=
  λ st, let '(a, st1) := f st in (Ok a, st1).

Global Instance M_ret : MRet M := @ret.
Global Instance M_bind : MBind M := λ A B k m, bind m k.

(** [array.forEach(f)] for a callback with effects. *)
Fixpoint forEach {A} (array : list A) (f : A → M unit) : M unit :=
  match array with
  | [] => ret tt
  | x :: rest => f x ;; forEach rest f
  end.

(** The final state of a synchronous piece that cannot throw. *)
Definition exec {A} (m : M A) (st : MemeApp) : MemeApp := snd (m st).

(** ** Cards *)

(** [formatNumber]: which of the three formats applies.  On a missing
    [ups] both comparisons are false and [num.toString()] throws. *)
Inductive Formatted := Millions (num : Z) | Thousands (num : Z) | Plain (num : Z).

Definition formatNumber (num : option Z) : Res Formatted :=
  match num with
  | None => Throw "TypeError"
  | Some n =>
      if (1000000 <=? n)%Z then Ok (Millions n)
      else if (1000 <=? n)%Z then Ok (Thousands n)
      else Ok (Plain n)
  end.

(** [createMemeCard]: the template evaluates [formatNumber(meme.upvotes)]
    before the card exists. *)
Definition createMemeCard (meme : Item) : Res Card :=
  match formatNumber (upvotes meme) with
  | Ok _ => Ok (MemeCard meme)
  | Throw e => Throw e
  end.

Definition createSkeleton : Card := SkeletonCard.

(** [this.feed.appendChild(card)]; a meme card is an item handed to the
    feed. *)
Definition appendChild (card : Card) : M unit :=
  modify (λ st,
    let st1 := set_feed (feed st ++ [card]) st in
    match card with
    | MemeCard meme => set_sink (sink st1 ++ [meme]) st1
    | _ => st1
    end).

(** The callback of both [forEach] calls:
    [meme => { const card = this.createMemeCard(meme);
               this.feed.appendChild(card); }] *)
Definition renderMeme (meme : Item) : M unit :=
  card ← lift (createMemeCard meme); appendChild card.

Definition showSkeletons (count : nat) : M unit :=
  modify (set_feed []) ;;
  forEach (seq 0 count) (λ _, appendChild createSkeleton).

Definition showError (message : string) : M unit :=
  modify (set_feed [ErrorMessage message CallReloadFeed]).

(** ** [shuffleArray]

    [draws] lists the successive values of
    [Math.floor(Math.random() * (i + 1))], one for each iteration; such a
    value lies in [0, i].  The loop stops when the draws run out. *)

(** [[array[i], array[j]] = [array[j], array[i]]]: both reads, then the
    write at [i], then the write at [j].  An index outside the array does
    not occur for a draw in [0, i]; the array is then left as it is. *)
Definition swap {A} (i j : nat) (array : list A) : list A :=
  match array !! i, array !! j with
  | Some ai, Some aj => <[j := ai]> (<[i := aj]> array)
  | _, _ => array
  end.

(** [for (let i = ...; i > 0; i--)], entered with the current [i]. *)
Fixpoint shuffle_loop {A} (i : nat) (draws : list nat) (array : list A)
    : list A :=
  match i, draws with
  | S i', j :: draws' => shuffle_loop i' draws' (swap (S i') j array)
  | _, _ => array
  end.

Definition shuffleArray {A} (draws : list nat) (array : list A) : list A :=
  shuffle_loop (length array - 1) draws array.

(** ** Asynchronous methods *)

(** A call of an [async] method: settled, or suspended at
    [await this.fetchMemes(subreddit, count)] in state [st], to be resumed
    with the fetch result in whatever the state is by then. *)
Inductive Async : Type :=
| Settled (outcome : Res unit) (st : MemeApp)
| AwaitFetch (subreddit : string) (count : nat) (st : MemeApp)
    (resume : FetchResult → MemeApp → Async).

Definition settle (m : M unit) (st : MemeApp) : Async :=
  let '(r, st1) := m st in Settled r st1.

(** The state in which the call hands control back to the caller. *)
Definition state_of (a : Async) : MemeApp :=
  match a with
  | Settled _ st => st
  | AwaitFetch _ _ st _ => st
  end.

(** Run a call to its end with no other handler in between; [net] is what
    the upstream answers to each request. *)
Fixpoint run (net : string → nat → FetchResult) (a : Async)
    : Res unit * MemeApp :=
  match a with
  | Settled r st => (r, st)
  | AwaitFetch subreddit count st resume =>
      run net (resume (net subreddit count) st)
  end.

(** The network requests of such a run, in order. *)
Fixpoint requests (net : string → nat → FetchResult) (a : Async)
    : list (string * nat) :=
  match a with
  | Settled _ _ => []
  | AwaitFetch subreddit count st resume =>
      (subreddit, count) :: requests net (resume (net subreddit count) st)
  end.

Definition final (net : string → nat → FetchResult) (a : Async) : MemeApp :=
  snd (run net a).

(** *** [loadInitialMemes] *)

(** After the loop: shuffle, clear the skeletons, show the error or the
    first page. *)
Definition loadInitialMemes_finish (draws : list nat) (allMemes : list Item)
    : M unit :=
  let shuffled := shuffleArray draws allMemes in
  modify (set_feed []) ;;
  if (length shuffled =? 0)%nat then
    showError "No memes found. Please try again later." ;;
    modify (set_isLoading false)
  else
    n ← gets itemsPerPage;
    let memesToShow := take n shuffled in
    forEach memesToShow renderMeme ;;
    modify (set_isLoading false).

(** [for (const subreddit of this.subreddits)] with one [await] per
    round. *)
Fixpoint loadInitialMemes_loop (draws : list nat) (subs : list string)
    (allMemes : list Item) (st : MemeApp) : Async :=
  match subs with
  | [] => settle (loadInitialMemes_finish draws allMemes) st
  | subreddit :: rest =>
      AwaitFetch subreddit 10 st (λ data st',
        match data with
        | Some _ =>
            let '(memes, st'') := parseMemes data subreddit st' in
            loadInitialMemes_loop draws rest (allMemes ++ memes) st''
        | None => loadInitialMemes_loop draws rest allMemes st'
        end)
  end.

Definition loadInitialMemes (draws : list nat) (st : MemeApp) : Async :=
  let st1 := set_failedAttempts 0 (set_isLoading true st) in
  loadInitialMemes_loop draws subreddits [] st1.

(** *** [loadMore] *)

Definition incr_failedAttempts : M unit :=
  modify (λ st, set_failedAttempts (S (failedAttempts st)) st).

(** The [try] block from the resumption of the [await] on. *)
Definition loadMore_try (subreddit : string) (data : FetchResult) : M unit :=
  match data with
  | Some _ =>
      memes ← call (parseMemes data subreddit);
      if (0 <? length memes)%nat then
        forEach memes renderMeme ;;
        modify (set_failedAttempts 0)
      else incr_failedAttempts
  | None => incr_failedAttempts
  end ;;
  modify (λ st, set_currentSubredditIndex
    ((currentSubredditIndex st + 1) mod length subreddits) st) ;;
  failed ← gets failedAttempts;
  if (maxFailedAttempts <=? failed)%nat then
    modify (set_hasMore false) ;;
    modify (set_endMessage true)
  else ret tt.

Definition loadMore_resume (subreddit : string) (data : FetchResult)
    : M unit :=
  try_catch (loadMore_try subreddit data) (λ _, incr_failedAttempts) ;;
  modify (set_isLoading false) ;;
  modify (set_loadingIndicator false).

Definition loadMore (st : MemeApp) : Async :=
  if isLoading st || negb (hasMore st) then Settled (Ok tt) st
  else
    let st1 := set_loadingIndicator true (set_isLoading true st) in
    let subreddit :=
      default "undefined" (subreddits !! currentSubredditIndex st1) in
    AwaitFetch subreddit (itemsPerPage st1) st1
      (λ data st', settle (loadMore_resume subreddit data) st').

(** *** The viewport trigger of [setupInfiniteScroll]

    [fired] is [entry.isIntersecting], or [this.isNearBottom()] in the
    scroll fallback. *)
Definition viewportTrigger (fired : bool) (st : MemeApp) : Async :=
  if fired && negb (isLoading st) && hasMore st then loadMore st
  else Settled (Ok tt) st.

(** *** Reload *)

Definition reset_session : M unit :=
  modify (set_hasMore true) ;;
  modify (set_currentSubredditIndex 0) ;;
  modify (set_seenIds ∅) ;;
  modify (set_failedAttempts 0) ;;
  modify (set_endMessage false) ;;
  modify (set_feed []) ;;
  n ← gets itemsPerPage;
  showSkeletons n.

(** [reloadFeed] calls [loadInitialMemes] without awaiting it: the call
    returns when that load suspends. *)
Definition reloadFeed (draws : list nat) (st : MemeApp) : Async :=
  loadInitialMemes draws (exec reset_session st).

(** The click handler of [setupReloadButton] has the same body. *)
Definition reloadBtn_click (draws : list nat) (st : MemeApp) : Async :=
  loadInitialMemes draws (exec reset_session st).

(** *** Construction and [setup] *)

Definition constructor (screenHeight : Z) : MemeApp :=
  {| feed := []; loadingIndicator := false; endMessage := false;
     isLoading := false; hasMore := true;
     currentSubredditIndex := 0; seenIds := ∅; failedAttempts := 0;
     itemsPerPage := calculateItemsPerPage screenHeight; sink := [] |}.

Definition setup (draws : list nat) (st : MemeApp) : Async :=
  loadInitialMemes draws (exec (showSkeletons (itemsPerPage st)) st).

(** The loop of [loadInitialMemes] run to its end: the array [allMemes]
    and the state in which the shuffle starts. *)
Fixpoint gather (net : string → nat → FetchResult) (subs : list string)
    (allMemes : list Item) (st : MemeApp) : list Item * MemeApp :=
  match subs with
  | [] => (allMemes, st)
  | subreddit :: rest =>
      match net subreddit 10 with
      | Some d =>
          let '(memes, st') := parseMemes (Some d) subreddit st in
          gather net rest (allMemes ++ memes) st'
      | None => gather net rest allMemes st
      end
  end.

(** The state after the cards of [shown] were appended to the feed. *)
Definition rendered (shown : list Item) (st : MemeApp) : MemeApp :=
  set_sink (sink st ++ shown) (set_feed (feed st ++ (MemeCard <$> shown)) st).

(** The array [allMemes] when the loop of [loadInitialMemes], called in
    state [st], ends. *)
Definition allMemes_of (net : string → nat → FetchResult) (st : MemeApp)
    : list Item :=
  fst (gather net subreddits []
         (set_failedAttempts 0 (set_isLoading true st))).

(** A run in which, at every [await], the viewport trigger fires and
    calls [loadMore] before the fetch resolves. *)
Fixpoint run_triggered (net : string → nat → FetchResult) (a : Async)
    : Res unit * MemeApp :=
  match a with
  | Settled r st => (r, st)
  | AwaitFetch subreddit count st resume =>
      run_triggered net
        (resume (net subreddit count) (state_of (viewportTrigger true st)))
  end.

(** *** Sequences of loads

    One load run to its end: the initial load, or a call of [loadMore]
    (refused or executed), each with the answers of the upstream during
    that load. *)
Inductive Load :=
| InitialLoad (net : string → nat → FetchResult) (draws : list nat)
| MoreLoad (net : string → nat → FetchResult).

Definition run_load (l : Load) (st : MemeApp) : MemeApp :=
  match l with
  | InitialLoad net draws => final net (loadInitialMemes draws st)
  | MoreLoad net => final net (loadMore st)
  end.

Definition run_loads (ls : list Load) (st : MemeApp) : MemeApp :=
  foldl (λ st l, run_load l st) st ls.

(** An executed incremental load whose fetch result is [data], run to its
    end from [st]. *)
Definition loadMore_with (data : FetchResult) (st : MemeApp) : MemeApp :=
  final (λ _ _, data) (loadMore st).

(** The items [parseMemes] yields for [data] in state [st]. *)
Definition normalized (data : FetchResult) (st : MemeApp) : list Item :=
  fst (parseMemes data "" st).

(** ** The wording of the specification *)

(** The Item Normalizer as the specification words it: drop a record
    flagged not safe, drop a record whose identifier is in the ledger,
    otherwise add the identifier and produce an item, in input order. *)
Fixpoint normalize (records : list Post) (ledger : gset string)
    : gset string * list Item :=
  match records with
  | [] => (ledger, [])
  | r :: rest =>
      if nsfw r then normalize rest ledger
      else if bool_decide (postLink r ∈ ledger) then normalize rest ledger
      else
        let '(ledger', items) := normalize rest ({[postLink r]} ∪ ledger) in
        (ledger', mkItem r :: items)
  end.

(** The reference shuffle as the specification words it: for index [i]
    from the last to the first, swap with an index drawn in [0, i].
    [n] indices remain, the current one is [n - 1]. *)
Fixpoint fisher_yates_loop {A} (n : nat) (draws : list nat) (array : list A)
    : list A :=
  match n, draws with
  | S i, j :: draws' => fisher_yates_loop i draws' (swap i j array)
  | _, _ => array
  end.

Definition fisher_yates {A} (draws : list nat) (array : list A) : list A :=
  fisher_yates_loop (length array) draws array.

(** All sequences of draws of the reference on [n] elements: the draw for
    index [i] ranges over [0, i]. *)
Fixpoint reference_draws (n : nat) : list (list nat) :=
  match n with
  | 0 => [[]]
  | S i => j ← seq 0 (S i); (λ draws, j :: draws) <$> reference_draws i
  end.

(** All sequences of draws of [shuffleArray] when its loop is entered at
    index [i]: one draw in [0, k] for each [k] from [i] down to 1. *)
Fixpoint all_draws (i : nat) : list (list nat) :=
  match i with
  | 0 => [[]]
  | S i' => j ← seq 0 (S (S i')); (λ draws, j :: draws) <$> all_draws i'
  end.

(** The number of draw sequences on which [shuffleArray] turns [array]
    into [p]; with independent uniform draws each sequence has the same
    probability, so the probability of [p] is this number over the number
    of all sequences. *)
Definition outcomes `{EqDecision A} (array p : list A) : nat :=
  length (filter (λ draws, shuffleArray draws array = p)
            (all_draws (length array - 1))).

(** ** [ThemeManager] (js/theme.js) *)

Module Theme.

(** The field [theme], the [theme] key of [localStorage], the
    [data-theme] attribute of the document element and the content of
    the [theme-color] meta element. *)
Record ThemeManager := {
  theme : string;
  localStorage : option string;
  data_theme : option string;
  metaThemeColor : option string
}.

(** [if (savedTheme)] and [!localStorage.getItem('theme')]: a missing key
    and the empty string are falsy. *)
Definition truthy (item : option string) : bool :=
  match item with
  | Some s => negb (String.eqb s "")
  | None => false
  end.

(** [matchMedia] is [None] when [window.matchMedia] is missing, else
    whether the system prefers the light scheme. *)
Definition getInitialTheme (storage : option string)
    (matchMedia : option bool) : string :=
  match storage with
  | Some savedTheme =>
      if truthy storage then savedTheme
      else match matchMedia with Some true => "light" | _ => "dark" end
  | None => match matchMedia with Some true => "light" | _ => "dark" end
  end.

Definition applyTheme (t : string) (tm : ThemeManager) : ThemeManager :=
  {| theme := t;
     localStorage := Some t;
     data_theme := Some t;
     metaThemeColor :=
       Some (if String.eqb t "dark" then "#161b22" else "#f6f8fa") |}.

Definition toggle (tm : ThemeManager) : ThemeManager :=
  let newTheme := if String.eqb (theme tm) "dark" then "light" else "dark" in
  applyTheme newTheme tm.

(** The listener of [watchSystemTheme]; [matches] is [e.matches] of the
    [(prefers-color-scheme: dark)] query. *)
Definition systemThemeChanged (matches : bool) (tm : ThemeManager)
    : ThemeManager :=
  if negb (truthy (localStorage tm)) then
    applyTheme (if matches then "dark" else "light") tm
  else tm.

(** [new ThemeManager()]: [getInitialTheme], then [init] applies it. *)
Definition constructor (storage : option string) (matchMedia : option bool)
    : ThemeManager :=
  let initial := getInitialTheme storage matchMedia in
  applyTheme initial
    {| theme := initial; localStorage := storage;
       data_theme := None; metaThemeColor := None |}.

Inductive Event :=
| Click
| SystemChange (matches : bool).

Definition handle (e : Event) (tm : ThemeManager) : ThemeManager :=
  match e with
  | Click => toggle tm
  | SystemChange matches => systemThemeChanged matches tm
  end.

Definition handle_all (es : list Event) (tm : ThemeManager) : ThemeManager :=
  foldl (λ tm e, handle e tm) tm es.

End Theme.


(** ** Sample inputs *)

Module Sample.

(** A record that passes the filter, one without its score, one flagged
    not safe. *)
Definition post_a : Post :=
  {| postLink := "https://redd.it/a"; post_title := "first";
     post_subreddit := "ProgrammerHumor"; url := "https://i.redd.it/a.png";
     ups := Some 1500%Z; post_author := "ann"; nsfw := false |}.

Definition post_b : Post :=
  {| postLink := "https://redd.it/b"; post_title := "second";
     post_subreddit := "codingmemes"; url := "https://i.redd.it/b.png";
     ups := None; post_author := "bob"; nsfw := false |}.

Definition post_c : Post :=
  {| postLink := "https://redd.it/c"; post_title := "third";
     post_subreddit := "programmingmemes"; url := "https://i.redd.it/c.png";
     ups := Some 7%Z; post_author := "cat"; nsfw := true |}.

Definition post_d : Post :=
  {| postLink := "https://redd.it/d"; post_title := "fourth";
     post_subreddit := "codingmemes"; url := "https://i.redd.it/d.png";
     ups := Some 2000000%Z; post_author := "dee"; nsfw := false |}.

Definition response (posts : list Post) : FetchResult :=
  Some {| memes := Some posts |}.

Definition no_memes : FetchResult := Some {| memes := None |}.

(** An upstream that is down, and one that answers the first subreddit
    only. *)
Definition offline : string → nat → FetchResult := λ _ _, None.

Definition first_only : string → nat → FetchResult :=
  λ subreddit _,
    if String.eqb subreddit "ProgrammerHumor"
    then response [post_a; post_c; post_a] else None.

(** The application once constructed, and with a load in flight. *)
Definition idle : MemeApp := constructor 800.

Definition busy : MemeApp := state_of (loadMore idle).

Definition loads : list Load :=
  [InitialLoad first_only [0; 1];
   MoreLoad (λ _ _, response [post_d; post_a]);
   MoreLoad (λ _ _, response [post_a; post_b]);
   MoreLoad (λ _ _, response [post_a; post_c]);
   MoreLoad offline].

End Sample.

(** ** The rest of the feed engine *)

(** *** [fetchMemes]

    What the transport gives [fetchMemes]: [fetch(url)] rejects or
    resolves to a response with its [ok] flag and [status]; [json()]
    rejects on an unparsable body, or resolves to the parsed value, which
    is an object ([Some]) or a falsy value ([None]). *)
Record HttpResponse := {
  ok : bool;
  status : nat;
  json : Res (option Data)
}.

(** The [try] block throws on a rejected [fetch], on [!response.ok] and on
    a rejected [json()]; the [catch] block returns [null]. *)
Definition fetchMemes (fetched : Res HttpResponse) : FetchResult :=
  match fetched with
  | Throw _ => None
  | Ok response =>
      if negb (ok response) then None
      else match json response with
           | Ok data => data
           | Throw _ => None
           end
  end.

(** The gateway over a transport that answers each request. *)
Definition gateway (transport : string → nat → Res HttpResponse)
    : string → nat → FetchResult :=
  λ subreddit count, fetchMemes (transport subreddit count).

(** A request that does not come back with an [ok] response. *)
Definition unavailable (fetched : Res HttpResponse) : Prop :=
  match fetched with
  | Throw _ => True
  | Ok response => ok response = false
  end.

(** *** The resize listener of [setup]

    The debounced body: [this.itemsPerPage = this.calculateItemsPerPage()]
    with the height of the window at that time. *)
Definition set_itemsPerPage (v : nat) (st : MemeApp) : MemeApp :=
  {| feed := feed st; loadingIndicator := loadingIndicator st;
     endMessage := endMessage st; isLoading := isLoading st;
     hasMore := hasMore st;
     currentSubredditIndex := currentSubredditIndex st;
     seenIds := seenIds st; failedAttempts := failedAttempts st;
     itemsPerPage := v; sink := sink st |}.

Definition onResize (screenHeight : Z) (st : MemeApp) : MemeApp :=
  set_itemsPerPage (calculateItemsPerPage screenHeight) st.

(** *** Resuming a suspended call

    The continuation of a suspended call, run with the fetch result in the
    state [later] that the handlers in between have left. *)
Definition resume_of (a : Async) (data : FetchResult) (later : MemeApp)
    : Async :=
  match a with
  | Settled r st => Settled r st
  | AwaitFetch _ _ _ resume => resume data later
  end.

(** An item whose card can be built: [formatNumber] has a number. *)
Definition has_score (meme : Item) : Prop := is_Some (upvotes meme).

(** Calls of [loadMore] one after the other, each run to its end. *)
Definition more_loads (nets : list (string → nat → FetchResult))
    : list Load :=
  MoreLoad <$> nets.

(** ** The event loop

    The engine in its page: the state of the application and the calls
    that are suspended at an [await], oldest first.  Handlers run one at a
    time; a suspended call goes on when its fetch resolves, in the state
    the handlers in between have left. *)
Record World := {
  engine : MemeApp;
  inflight : list Async
}.

Inductive Event :=
| Trigger (fired : bool)
| Resize (screenHeight : Z)
| Reload (draws : list nat)
| Resolve (k : nat) (data : FetchResult).

(** A call hands control back: settled, or suspended and kept. *)
Definition spawn (a : Async) (w : World) : World :=
  match a with
  | Settled _ st => {| engine := st; inflight := inflight w |}
  | AwaitFetch _ _ st _ => {| engine := st; inflight := inflight w ++ [a] |}
  end.

(** One event: the viewport trigger (or the scroll fallback), the resize
    listener, a click on the reload or the retry button, or the fetch of
    the [k]-th suspended call resolving to [data]. *)
Definition step (e : Event) (w : World) : World :=
  match e with
  | Trigger fired => spawn (viewportTrigger fired (engine w)) w
  | Resize screenHeight =>
      {| engine := onResize screenHeight (engine w); inflight := inflight w |}
  | Reload draws => spawn (reloadFeed draws (engine w)) w
  | Resolve k data =>
      match inflight w !! k with
      | Some a =>
          spawn (resume_of a data (engine w))
            {| engine := engine w; inflight := delete k (inflight w) |}
      | None => w
      end
  end.

Definition run_events (es : list Event) (w : World) : World :=
  foldl (λ w e, step e w) w es.

(** The page once loaded: [new MemeApp()] and [setup]. *)
Definition boot (screenHeight : Z) (draws : list nat) : World :=
  spawn (setup draws (constructor screenHeight))
    {| engine := constructor screenHeight; inflight := [] |}.

(** The events of one session: everything but a reload. *)
Definition in_session (e : Event) : Prop :=
  match e with
  | Reload _ => False
  | _ => True
  end.

(** What can happen while a call waits for its fetch, short of the fetch
    resolving or a reload: the trigger fires, the window is resized. *)
Definition between_fetches (e : Event) : Prop :=
  match e with
  | Trigger _ | Resize _ => True
  | _ => False
  end.

(** Where a session starts with no load of an earlier session in flight:
    the page once loaded, a reload made while no call is suspended, or any
    state with no call suspended. *)
Inductive session_start : World → Prop :=
| start_boot (screenHeight : Z) (draws : list nat) :
    session_start (boot screenHeight draws)
| start_reload (draws : list nat) (st : MemeApp) :
    session_start (step (Reload draws) {| engine := st; inflight := [] |})
| start_idle (st : MemeApp) :
    session_start {| engine := st; inflight := [] |}.

(** The suspended calls of a session. *)
Definition awaits_more (a : Async) : Prop :=
  ∃ subreddit count st,
    a = AwaitFetch subreddit count st
          (λ data st', settle (loadMore_resume subreddit data) st').

Definition awaits_initial (allMemes : list Item) (a : Async) : Prop :=
  ∃ draws subreddit rest st,
    a = loadInitialMemes_loop draws (subreddit :: rest) allMemes st.

(** What holds throughout a session that handed [sink0] to the feed
    before it started and whose ledger held [seen0] then: the items handed
    to the feed since have pairwise different identifiers, all in the
    ledger and none in [seen0]; at most one call is suspended, with
    [isLoading] true, and what a suspended initial load has collected is
    in the ledger and has not been shown. *)
Definition session_inv (seen0 : gset string) (sink0 : list Item)
    (w : World) : Prop :=
  ∃ new,
    sink (engine w) = sink0 ++ new
    ∧ NoDup (id <$> new)
    ∧ seen0 ⊆ seenIds (engine w)
    ∧ (∀ m, m ∈ new → id m ∈ seenIds (engine w) ∧ id m ∉ seen0)
    ∧ (inflight w = []
       ∨ (isLoading (engine w) = true
          ∧ ∃ a, inflight w = [a] ∧ awaits_more a)
       ∨ (isLoading (engine w) = true
          ∧ ∃ a allMemes,
              inflight w = [a] ∧ awaits_initial allMemes a
              ∧ NoDup (id <$> allMemes)
              ∧ ∀ m, m ∈ allMemes →
                  id m ∈ seenIds (engine w) ∧ (id m ∉ seen0)
                  ∧ id m ∉ id <$> new)).

(** * Properties *)

#[local] Arguments Nat.modulo : simpl never.
#[local] Arguments Nat.leb : simpl never.
#[local] Arguments Nat.ltb : simpl never.
#[local] Arguments Nat.eqb : simpl never.
#[local] Arguments maxFailedAttempts : simpl never.
#[local] Arguments subreddits : simpl never.

(** ** The normalizer *)

Lemma parseMemes_loop_acc (posts : list Post) (seen : gset string)
    (acc : list Item) :
  parseMemes_loop posts seen acc =
  (fst (parseMemes_loop posts seen []),
   acc ++ snd (parseMemes_loop posts seen [])).
Proof.
  revert seen acc. induction posts as [|post rest IH]; intros seen acc; simpl.
  - by rewrite app_nil_r.
  - case_bool_decide; [apply IH|].
    destruct (nsfw post); [apply IH|].
    rewrite (IH _ (acc ++ _)), (IH _ [_]). simpl.
    by rewrite <-app_assoc.
Qed.

Lemma parseMemes_loop_normalize (posts : list Post) (seen : gset string) :
  parseMemes_loop posts seen [] = normalize posts seen.
Proof.
  revert seen. induction posts as [|post rest IH]; intros seen; simpl; [done|].
  case_bool_decide; destruct (nsfw post); try apply IH.
  rewrite parseMemes_loop_acc, IH. simpl.
  by destruct (normalize rest _).
Qed.

(** What [normalize] keeps: a subsequence of the records, none flagged,
    none in the ledger, with pairwise different identifiers, covering
    every identifier that was eligible. *)
Lemma normalize_kept (records : list Post) (ledger : gset string) :
  ∃ kept,
    normalize records ledger =
      (list_to_set (postLink <$> kept) ∪ ledger, mkItem <$> kept)
    ∧ sublist kept records
    ∧ Forall (λ r, nsfw r = false ∧ postLink r ∉ ledger) kept
    ∧ NoDup (postLink <$> kept)
    ∧ ∀ r, r ∈ records → nsfw r = false → postLink r ∉ ledger →
        postLink r ∈ postLink <$> kept.
Proof.
  revert ledger.
  induction records as [|r rest IH]; intros ledger.
  - exists []. simpl. split_and!; try constructor.
    + f_equal. set_solver.
    + intros r Hr. by apply elem_of_nil in Hr.
  - simpl. destruct (nsfw r) eqn:Hnsfw.
    { destruct (IH ledger) as (kept & Heq & Hsub & Hall & Hnd & Hcov).
      exists kept. split_and!; auto.
      - by apply sublist_cons.
      - intros r' [->|Hr']%elem_of_cons; [congruence|auto]. }
    case_bool_decide as Hin.
    { destruct (IH ledger) as (kept & Heq & Hsub & Hall & Hnd & Hcov).
      exists kept. split_and!; auto.
      - by apply sublist_cons.
      - intros r' [->|Hr']%elem_of_cons; [done|auto]. }
    destruct (IH ({[postLink r]} ∪ ledger))
      as (kept & Heq & Hsub & Hall & Hnd & Hcov).
    exists (r :: kept). rewrite Heq. simpl. split_and!.
    + f_equal. set_solver.
    + by apply sublist_skip.
    + constructor; [done|].
      eapply Forall_impl; [exact Hall|]. simpl. set_solver.
    + constructor; [|done].
      intros (r' & Heq' & Hr')%list_elem_of_fmap.
      rewrite Forall_forall in Hall. apply Hall in Hr'. set_solver.
    + intros r' [->|Hr']%elem_of_cons _H1 H2; [left|].
      destruct (decide (postLink r' = postLink r)) as [->|Hne]; [left|].
      right. apply Hcov; auto. set_solver.
Qed.

(** ** Synchronous pieces *)

Ltac unfold_js :=
  unfold mbind, M_bind, bind, mret, M_ret, ret, modify, gets, call, lift,
    try_catch, incr_failedAttempts in *.

Lemma createMemeCard_Some (meme : Item) :
  is_Some (upvotes meme) → createMemeCard meme = Ok (MemeCard meme).
Proof.
  intros [n Hn]. unfold createMemeCard, formatNumber. rewrite Hn.
  by repeat case_match.
Qed.

Lemma createMemeCard_None (meme : Item) :
  upvotes meme = None → createMemeCard meme = Throw "TypeError".
Proof. intros Hn. unfold createMemeCard, formatNumber. by rewrite Hn. Qed.

Lemma rendered_nil (st : MemeApp) : rendered [] st = st.
Proof. destruct st. unfold rendered, set_sink, set_feed. simpl. by rewrite !app_nil_r. Qed.

Lemma rendered_cons (meme : Item) (shown : list Item) (st : MemeApp) :
  rendered (meme :: shown) st = rendered shown (rendered [meme] st).
Proof.
  unfold rendered, set_sink, set_feed. simpl.
  by rewrite <-!app_assoc.
Qed.

Lemma forEach_cons {A} (x : A) (rest : list A) (f : A → M unit)
    (st : MemeApp) :
  forEach (x :: rest) f st =
  match f x st with
  | (Ok _, st1) => forEach rest f st1
  | (Throw e, st1) => (Throw e, st1)
  end.
Proof. done. Qed.

Lemma renderMeme_Some (meme : Item) (st : MemeApp) :
  is_Some (upvotes meme) → renderMeme meme st = (Ok tt, rendered [meme] st).
Proof.
  intros Hn. unfold renderMeme. unfold_js.
  by rewrite createMemeCard_Some.
Qed.

Lemma renderMeme_None (meme : Item) (st : MemeApp) :
  upvotes meme = None → renderMeme meme st = (Throw "TypeError", st).
Proof.
  intros Hn. unfold renderMeme. unfold_js.
  by rewrite createMemeCard_None.
Qed.

(** The [forEach] over [renderMeme] appends cards for a prefix of the
    array: all of it, or up to the first item whose card cannot be
    built. *)
Lemma forEach_renderMeme (array : list Item) (st : MemeApp) :
  ∃ shown,
    shown `prefix_of` array
    ∧ snd (forEach array renderMeme st) = rendered shown st
    ∧ (fst (forEach array renderMeme st) = Ok tt ∧ shown = array
       ∨ (∃ e, fst (forEach array renderMeme st) = Throw e)
         ∧ ¬ Forall (λ m, is_Some (upvotes m)) array).
Proof.
  revert st. induction array as [|meme rest IH]; intros st.
  - exists []. split_and!; [done|by rewrite rendered_nil|by left].
  - rewrite forEach_cons.
    destruct (upvotes meme) as [n|] eqn:Hn.
    + rewrite renderMeme_Some by (by rewrite Hn).
      destruct (IH (rendered [meme] st)) as (shown & Hpre & Hst & Hres).
      exists (meme :: shown). split_and!.
      * by apply prefix_cons.
      * by rewrite (rendered_cons meme shown st).
      * destruct Hres as [[Hok ->]|[He Hnot]]; [by left|right].
        split; [done|]. intros Hall. apply Hnot. by inversion Hall.
    + rewrite renderMeme_None by done.
      exists []. split_and!.
      * apply prefix_nil.
      * by rewrite rendered_nil.
      * right. split; [by eexists|].
        intros Hall. inversion Hall as [|?? [? ?]]. congruence.
Qed.

Lemma forEach_renderMeme_ok (array : list Item) (st : MemeApp) :
  Forall (λ m, is_Some (upvotes m)) array →
  forEach array renderMeme st = (Ok tt, rendered array st).
Proof.
  intros Hall.
  destruct (forEach_renderMeme array st) as (shown & _ & Hst & [[Hok ->]|[_ Hnot]]);
    [|done].
  destruct (forEach array renderMeme st) as [r st']. simpl in *. by subst.
Qed.

(** [parseMemes] reads and writes the ledger only. *)
Lemma parseMemes_kept (data : FetchResult) (subreddit : string)
    (st : MemeApp) :
  ∃ kept,
    parseMemes data subreddit st =
      (mkItem <$> kept,
       set_seenIds (list_to_set (postLink <$> kept) ∪ seenIds st) st)
    ∧ Forall (λ r, nsfw r = false ∧ postLink r ∉ seenIds st) kept
    ∧ NoDup (postLink <$> kept).
Proof.
  assert (Hid : ([], st) =
    (mkItem <$> [], set_seenIds (list_to_set (postLink <$> []) ∪ seenIds st) st)).
  { simpl. rewrite (left_id_L ∅ (∪)). by destruct st. }
  unfold parseMemes. destruct data as [[[posts|]]|]; simpl.
  - rewrite parseMemes_loop_normalize.
    destruct (normalize_kept posts (seenIds st))
      as (kept & -> & _ & Hall & Hnd & _).
    by exists kept.
  - exists []. split_and!; [done|constructor|constructor].
  - exists []. split_and!; [done|constructor|constructor].
Qed.

Lemma normalized_seenIds (data : FetchResult) (st st' : MemeApp) :
  seenIds st = seenIds st' → normalized data st = normalized data st'.
Proof.
  intros Heq. unfold normalized, parseMemes.
  destruct data as [[[posts|]]|]; simpl; try done.
  rewrite Heq. by destruct (parseMemes_loop _ _ _).
Qed.

Lemma parseMemes_normalized (data : FetchResult) (subreddit : string)
    (st : MemeApp) :
  fst (parseMemes data subreddit st) = normalized data st.
Proof. done. Qed.

Lemma parseMemes_empty (data : FetchResult) (subreddit : string)
    (st : MemeApp) :
  normalized data st = [] → parseMemes data subreddit st = ([], st).
Proof.
  intros Hn. rewrite <-(parseMemes_normalized data subreddit) in Hn.
  destruct (parseMemes_kept data subreddit st) as (kept & Heq & _).
  rewrite Heq in *. simpl in Hn.
  apply fmap_nil_inv in Hn as ->. simpl.
  rewrite (left_id_L ∅ (∪)). by destruct st.
Qed.


(** ** [loadMore] *)

Lemma loadMore_refused (st : MemeApp) :
  isLoading st = true ∨ hasMore st = false →
  loadMore st = Settled (Ok tt) st.
Proof. unfold loadMore. by intros [-> | ->]; rewrite ?orb_true_r. Qed.

Lemma loadMore_executed (st : MemeApp) :
  isLoading st = false → hasMore st = true →
  loadMore st =
    let st1 := set_loadingIndicator true (set_isLoading true st) in
    let subreddit :=
      default "undefined" (subreddits !! currentSubredditIndex st) in
    AwaitFetch subreddit (itemsPerPage st) st1
      (λ data st', settle (loadMore_resume subreddit data) st').
Proof. unfold loadMore. by intros -> ->. Qed.

(** The resumption of [loadMore] when the fetch result normalizes to no
    item (absent, without [memes], or nothing that passes the filter). *)
Lemma loadMore_resume_empty (subreddit : string) (data : FetchResult)
    (st : MemeApp) :
  normalized data st = [] →
  loadMore_resume subreddit data st =
    (Ok tt,
     let failed := S (failedAttempts st) in
     let st1 := set_currentSubredditIndex
       ((currentSubredditIndex st + 1) mod length subreddits)
       (set_failedAttempts failed st) in
     let st2 :=
       if maxFailedAttempts <=? failed
       then set_endMessage true (set_hasMore false st1) else st1 in
     set_loadingIndicator false (set_isLoading false st2)).
Proof.
  intros Hempty. unfold loadMore_resume, loadMore_try. unfold_js.
  destruct data as [d|].
  - rewrite parseMemes_empty by done. simpl.
    by destruct (maxFailedAttempts <=? S (failedAttempts st)).
  - simpl. by destruct (maxFailedAttempts <=? S (failedAttempts st)).
Qed.

(** The resumption of [loadMore] when normalization yields items and
    every card can be built. *)
Lemma loadMore_resume_items (subreddit : string) (data : FetchResult)
    (st : MemeApp) :
  normalized data st ≠ [] →
  Forall (λ m, is_Some (upvotes m)) (normalized data st) →
  loadMore_resume subreddit data st =
    (Ok tt,
     let st0 := rendered (normalized data st)
       (snd (parseMemes data subreddit st)) in
     let st1 := set_currentSubredditIndex
       ((currentSubredditIndex st + 1) mod length subreddits)
       (set_failedAttempts 0 st0) in
     set_loadingIndicator false (set_isLoading false st1)).
Proof.
  intros Hne Hall. unfold loadMore_resume, loadMore_try. unfold_js.
  destruct data as [d|]; [|done].
  rewrite <-(parseMemes_normalized (Some d) subreddit) in *.
  destruct (parseMemes_kept (Some d) subreddit st) as (kept & Heq & _).
  destruct (parseMemes (Some d) subreddit st) as [out st1].
  cbn [fst snd] in *.
  assert (Hlen : (0 <? length out) = true) by by destruct out.
  rewrite Hlen, forEach_renderMeme_ok by done. simpl.
  by simplify_eq.
Qed.

(** The resumption of [loadMore] always completes, with the loading flag
    and the indicator off. *)
Lemma loadMore_resume_unlocks (subreddit : string) (data : FetchResult)
    (st : MemeApp) :
  ∃ st', loadMore_resume subreddit data st = (Ok tt, st')
    ∧ isLoading st' = false ∧ loadingIndicator st' = false.
Proof.
  unfold loadMore_resume. unfold_js.
  destruct (loadMore_try subreddit data st) as [[[]|e] st1];
    simpl; eexists; split_and!; reflexivity.
Qed.

Lemma run_settle (net : string → nat → FetchResult) (m : M unit)
    (st : MemeApp) :
  run net (settle m st) = m st.
Proof. unfold settle. by destruct (m st). Qed.

Lemma requests_settle (net : string → nat → FetchResult) (m : M unit)
    (st : MemeApp) :
  requests net (settle m st) = [].
Proof. unfold settle. by destruct (m st). Qed.

Lemma loadMore_with_executed (data : FetchResult) (st : MemeApp) :
  isLoading st = false → hasMore st = true →
  loadMore_with data st =
    snd (loadMore_resume
           (default "undefined" (subreddits !! currentSubredditIndex st)) data
           (set_loadingIndicator true (set_isLoading true st))).
Proof.
  intros Hl Hm. unfold loadMore_with, final.
  rewrite loadMore_executed by done. simpl.
  by rewrite run_settle.
Qed.

(** An executed load whose fetch result normalizes to no item. *)
Lemma loadMore_with_empty (data : FetchResult) (st : MemeApp) :
  isLoading st = false → hasMore st = true → normalized data st = [] →
  loadMore_with data st =
    let failed := S (failedAttempts st) in
    let st1 := set_currentSubredditIndex
      ((currentSubredditIndex st + 1) mod length subreddits)
      (set_failedAttempts failed
         (set_loadingIndicator true (set_isLoading true st))) in
    let st2 :=
      if maxFailedAttempts <=? failed
      then set_endMessage true (set_hasMore false st1) else st1 in
    set_loadingIndicator false (set_isLoading false st2).
Proof.
  intros Hl Hm Hempty. rewrite loadMore_with_executed by done.
  rewrite loadMore_resume_empty; [done|].
  rewrite <-Hempty. by apply normalized_seenIds.
Qed.

(** C7, as the code has it.  In an executed incremental load, a fetch
    result that normalizes to no item, absent or present, leaves the same
    state as the absent result and adds exactly one to [failedAttempts]; a
    load that yields at least one item, each with its score so that every
    card can be built, sets [failedAttempts] to 0; in each of these cases
    the cursor moves to the next index modulo the number of subreddits.
    A load in which a card cannot be built is the [catch] path, where the
    count goes up and the cursor stays. *)
Theorem failure_streak_accounting (data : FetchResult) (st : MemeApp) :
  isLoading st = false → hasMore st = true →
  (normalized data st = [] →
     loadMore_with data st = loadMore_with None st
     ∧ failedAttempts (loadMore_with data st) = S (failedAttempts st)
     ∧ currentSubredditIndex (loadMore_with data st) =
         (currentSubredditIndex st + 1) mod length subreddits)
  ∧ (normalized data st ≠ [] →
     Forall (λ m, is_Some (upvotes m)) (normalized data st) →
     failedAttempts (loadMore_with data st) = 0
     ∧ currentSubredditIndex (loadMore_with data st) =
         (currentSubredditIndex st + 1) mod length subreddits).
Proof.
  intros Hl Hm. split.
  - intros Hempty.
    rewrite (loadMore_with_empty data), (loadMore_with_empty None) by done.
    split; [done|]. simpl.
    by destruct (maxFailedAttempts <=? S (failedAttempts st)).
  - intros Hne Hall. rewrite loadMore_with_executed by done.
    set (st1 := set_loadingIndicator true (set_isLoading true st)).
    assert (Hn : normalized data st1 = normalized data st)
      by by apply normalized_seenIds.
    rewrite loadMore_resume_items by by rewrite Hn.
    done.
Qed.

(** C2.  From a state with [hasMore] true and [failedAttempts] 0, three
    executed incremental loads in a row that each yield no item leave
    [hasMore] false and the end message shown; each of the three was
    executed, and the fourth call settles at once in the same state with
    no request. *)
Theorem exhaustion_after_three (d1 d2 d3 : FetchResult) (st : MemeApp) :
  isLoading st = false → hasMore st = true → failedAttempts st = 0 →
  let st1 := loadMore_with d1 st in
  let st2 := loadMore_with d2 st1 in
  let st3 := loadMore_with d3 st2 in
  normalized d1 st = [] → normalized d2 st1 = [] → normalized d3 st2 = [] →
  (isLoading st1 = false ∧ hasMore st1 = true
   ∧ isLoading st2 = false ∧ hasMore st2 = true)
  ∧ failedAttempts st3 = maxFailedAttempts
  ∧ hasMore st3 = false
  ∧ endMessage st3 = true
  ∧ loadMore st3 = Settled (Ok tt) st3
  ∧ ∀ net, requests net (loadMore st3) = [] ∧ final net (loadMore st3) = st3.
Proof.
  intros Hl Hm Hf st1 st2 st3 H1 H2 H3.
  assert (E1 : isLoading st1 = false ∧ hasMore st1 = true
               ∧ failedAttempts st1 = 1).
  { subst st1. rewrite loadMore_with_empty by done. rewrite Hf. simpl.
    by rewrite Hm. }
  destruct E1 as (Hl1 & Hm1 & Hf1).
  assert (E2 : isLoading st2 = false ∧ hasMore st2 = true
               ∧ failedAttempts st2 = 2).
  { subst st2. rewrite loadMore_with_empty by done. rewrite Hf1. simpl.
    by rewrite Hm1. }
  destruct E2 as (Hl2 & Hm2 & Hf2).
  assert (E3 : failedAttempts st3 = 3 ∧ hasMore st3 = false
               ∧ endMessage st3 = true).
  { subst st3. rewrite loadMore_with_empty by done. by rewrite Hf2. }
  destruct E3 as (Hf3 & Hm3 & He3).
  assert (Hno : loadMore st3 = Settled (Ok tt) st3)
    by (apply loadMore_refused; by right).
  split_and!; try done.
  intros net. by rewrite Hno.
Qed.

Lemma viewportTrigger_refused (fired : bool) (st : MemeApp) :
  isLoading st = true ∨ hasMore st = false →
  viewportTrigger fired st = Settled (Ok tt) st.
Proof.
  intros Hguard. unfold viewportTrigger.
  rewrite loadMore_refused by done. by case_match.
Qed.

(** C3.  A call of [loadMore] while [isLoading] is true or [hasMore] is
    false settles at once: no request, and the state, fields and feed
    alike, is the one it was called in; the viewport trigger does the same.
    A call that passes the guard suspends with [isLoading] true, so a
    second call made before the fetch resolves is refused, and both calls
    together issue exactly one request. *)
Theorem loadMore_guard (st : MemeApp) :
  (isLoading st = true ∨ hasMore st = false →
     loadMore st = Settled (Ok tt) st
     ∧ (∀ fired, viewportTrigger fired st = Settled (Ok tt) st)
     ∧ ∀ net, requests net (loadMore st) = []
              ∧ run net (loadMore st) = (Ok tt, st))
  ∧ (isLoading st = false → hasMore st = true →
     let inflight := state_of (loadMore st) in
     isLoading inflight = true
     ∧ loadMore inflight = Settled (Ok tt) inflight
     ∧ (∀ fired, viewportTrigger fired inflight = Settled (Ok tt) inflight)
     ∧ ∀ net, ∃ request,
         requests net (loadMore st) ++ requests net (loadMore inflight)
         = [request]).
Proof.
  split.
  - intros Hguard. split_and!.
    + by apply loadMore_refused.
    + intros fired. by apply viewportTrigger_refused.
    + intros net. by rewrite loadMore_refused.
  - intros Hl Hm inflight.
    assert (Hbusy : isLoading inflight = true).
    { subst inflight. by rewrite loadMore_executed. }
    split_and!; [done|..].
    + apply loadMore_refused. by left.
    + intros fired. apply viewportTrigger_refused. by left.
    + intros net. rewrite (loadMore_refused inflight) by by left.
      rewrite loadMore_executed by done. simpl.
      rewrite requests_settle. by eexists.
Qed.

(** C10.  A call of [loadMore] that passes the guard suspends with
    [isLoading] and the indicator on; whatever the fetch resolves to and
    whatever the state is by then, the resumption completes without an
    exception escaping and leaves [isLoading] false and the indicator off:
    with items, with none, with an absent result, at the threshold, and
    when the [try] block throws. *)
Theorem loadMore_always_unlocks (data : FetchResult) (st : MemeApp) :
  isLoading st = false → hasMore st = true →
  (∃ subreddit resume,
      loadMore st =
        AwaitFetch subreddit (itemsPerPage st) (state_of (loadMore st)) resume
      ∧ isLoading (state_of (loadMore st)) = true
      ∧ loadingIndicator (state_of (loadMore st)) = true
      ∧ ∀ later, ∃ st',
          resume data later = Settled (Ok tt) st'
          ∧ isLoading st' = false ∧ loadingIndicator st' = false)
  ∧ fst (run (λ _ _, data) (loadMore st)) = Ok tt
  ∧ isLoading (loadMore_with data st) = false
  ∧ loadingIndicator (loadMore_with data st) = false.
Proof.
  intros Hl Hm. split.
  - rewrite loadMore_executed by done. simpl.
    do 2 eexists. split_and!; try reflexivity.
    intros later.
    destruct (loadMore_resume_unlocks
      (default "undefined" (subreddits !! currentSubredditIndex st))
      data later) as (st' & Heq & H1 & H2).
    exists st'. unfold settle. by rewrite Heq.
  - unfold loadMore_with, final.
    rewrite loadMore_executed by done. simpl. rewrite run_settle.
    destruct (loadMore_resume_unlocks
      (default "undefined" (subreddits !! currentSubredditIndex st)) data
      (set_loadingIndicator true (set_isLoading true st)))
      as (st' & Heq & H1 & H2).
    by rewrite Heq.
Qed.

Lemma id_mkItem (kept : list Post) :
  id <$> (mkItem <$> kept) = postLink <$> kept.
Proof. by rewrite <-list_fmap_compose. Qed.

(** What a resumption of [loadMore] does to the ledger, the feed and the
    sink, on every path: the ledger grows by the kept records, the feed
    and the sink by a prefix of their items. *)
Lemma loadMore_resume_effect (subreddit : string) (data : FetchResult)
    (st : MemeApp) :
  ∃ kept shown,
    Forall (λ r, nsfw r = false ∧ postLink r ∉ seenIds st) kept
    ∧ NoDup (postLink <$> kept)
    ∧ shown `prefix_of` mkItem <$> kept
    ∧ sink (snd (loadMore_resume subreddit data st)) = sink st ++ shown
    ∧ feed (snd (loadMore_resume subreddit data st)) =
        feed st ++ (MemeCard <$> shown)
    ∧ seenIds (snd (loadMore_resume subreddit data st)) =
        list_to_set (postLink <$> kept) ∪ seenIds st.
Proof.
  unfold loadMore_resume, loadMore_try. unfold_js.
  destruct data as [d|].
  - destruct (parseMemes_kept (Some d) subreddit st)
      as (kept & Heq & Hall & Hnd).
    rewrite Heq. set (st1 := set_seenIds _ st).
    exists kept.
    destruct (0 <? length (mkItem <$> kept)).
    + destruct (forEach_renderMeme (mkItem <$> kept) st1)
        as (shown & Hpre & Hst & _).
      exists shown.
      destruct (forEach (mkItem <$> kept) renderMeme st1) as [[[]|e] st2];
        simpl in Hst; subst st2; simpl;
        [destruct (maxFailedAttempts <=? 0)|]; by split_and!.
    + exists []. simpl.
      destruct (maxFailedAttempts <=? S (failedAttempts st)); simpl;
        rewrite !app_nil_r; split_and!; try done; apply prefix_nil.
  - exists [], []. simpl.
    destruct (maxFailedAttempts <=? S (failedAttempts st)); simpl;
      rewrite !app_nil_r, (left_id_L ∅ (∪));
      split_and!; try done; constructor.
Qed.

(** ** [shuffleArray] returns a permutation *)

Lemma swap_length {A} (i j : nat) (array : list A) :
  length (swap i j array) = length array.
Proof. unfold swap. repeat case_match; by rewrite ?length_insert. Qed.

(** Reading the swapped array: positions [i] and [j] exchanged. *)
Lemma swap_lookup {A} (i j k : nat) (array : list A) :
  i < length array → j < length array →
  swap i j array !! k =
    array !! (if decide (k = i) then j else if decide (k = j) then i else k).
Proof.
  intros Hi Hj. unfold swap.
  destruct (lookup_lt_is_Some_2 array i Hi) as [ai Hai].
  destruct (lookup_lt_is_Some_2 array j Hj) as [aj Haj].
  rewrite Hai, Haj, !list_lookup_insert, length_insert.
  repeat case_decide; subst; try done; try lia; naive_solver.
Qed.

Lemma swap_Permutation {A} (i j : nat) (array : list A) :
  swap i j array ≡ₚ array.
Proof.
  destruct (decide (i < length array ∧ j < length array)) as [[Hi Hj]|Hout].
  - apply Permutation_inj. split; [apply swap_length|].
    exists (λ k, if decide (k = i) then j else if decide (k = j) then i else k).
    split; [|intros k; by apply swap_lookup].
    intros k1 k2. repeat case_decide; lia.
  - unfold swap.
    destruct (array !! i) eqn:Hai; [|done].
    destruct (array !! j) eqn:Haj; [|done].
    apply lookup_lt_Some in Hai, Haj. lia.
Qed.

Lemma shuffle_loop_Permutation {A} (i : nat) (draws : list nat)
    (array : list A) :
  shuffle_loop i draws array ≡ₚ array.
Proof.
  revert draws array. induction i as [|i IH]; intros draws array; [done|].
  destruct draws as [|j draws]; [done|]. simpl.
  by rewrite IH, swap_Permutation.
Qed.

Lemma shuffleArray_Permutation {A} (draws : list nat) (array : list A) :
  shuffleArray draws array ≡ₚ array.
Proof. apply shuffle_loop_Permutation. Qed.

(** ** [loadInitialMemes] *)

Lemma set_seenIds_same (st : MemeApp) : set_seenIds (seenIds st) st = st.
Proof. by destruct st. Qed.

(** The loop only touches the ledger; the items it collects are new to
    the ledger it started from and pairwise different. *)
Lemma gather_spec (net : string → nat → FetchResult) (subs : list string)
    (allMemes : list Item) (st : MemeApp) :
  ∃ extra seen,
    gather net subs allMemes st = (allMemes ++ extra, set_seenIds seen st)
    ∧ seenIds st ⊆ seen
    ∧ NoDup (id <$> extra)
    ∧ ∀ m, m ∈ extra → (id m ∉ seenIds st) ∧ id m ∈ seen.
Proof.
  revert allMemes st.
  induction subs as [|subreddit rest IH]; intros allMemes st;
    cbn [gather loadInitialMemes_loop run requests].
  - exists [], (seenIds st).
    rewrite app_nil_r, set_seenIds_same.
    split_and!; [done|done|constructor|].
    intros m Hm. by apply elem_of_nil in Hm.
  - destruct (net subreddit 10) as [d|]; [|apply IH].
    destruct (parseMemes_kept (Some d) subreddit st)
      as (kept & Heq & Hall & Hnd).
    rewrite Heq. set (seen1 := _ ∪ seenIds st) in *.
    destruct (IH (allMemes ++ (mkItem <$> kept)) (set_seenIds seen1 st))
      as (extra & seen & Hg & Hsub & Hnd' & Hnew).
    simpl in Hsub, Hnew.
    exists ((mkItem <$> kept) ++ extra), seen.
    rewrite Hg, <-app_assoc. split_and!; [done|set_solver|..].
    + rewrite fmap_app, id_mkItem. apply NoDup_app. split_and!; [done| |done].
      intros x Hx (m & -> & Hm)%list_elem_of_fmap.
      apply Hnew in Hm as [Hm _]. set_solver.
    + intros m [Hm|Hm]%elem_of_app.
      * apply list_elem_of_fmap in Hm as (r & -> & Hr).
        rewrite Forall_forall in Hall. destruct (Hall r Hr) as [_ Hfresh].
        change (id (mkItem r)) with (postLink r).
        split; [done|]. apply Hsub.
        apply elem_of_union_l, elem_of_list_to_set.
        by apply list_elem_of_fmap_2.
      * apply Hnew in Hm as [Hm1 Hm2]. split; [set_solver|done].
Qed.

Lemma run_loadInitialMemes_loop (net : string → nat → FetchResult)
    (draws : list nat) (subs : list string) (allMemes : list Item)
    (st : MemeApp) :
  run net (loadInitialMemes_loop draws subs allMemes st) =
  loadInitialMemes_finish draws
    (fst (gather net subs allMemes st)) (snd (gather net subs allMemes st)).
Proof.
  revert allMemes st.
  induction subs as [|subreddit rest IH]; intros allMemes st;
    cbn [gather loadInitialMemes_loop run requests].
  - apply run_settle.
  - destruct (net subreddit 10) as [d|]; [|apply IH].
    destruct (parseMemes (Some d) subreddit st) as [memes st1]. apply IH.
Qed.

Lemma requests_loadInitialMemes_loop (net : string → nat → FetchResult)
    (draws : list nat) (subs : list string) (allMemes : list Item)
    (st : MemeApp) :
  requests net (loadInitialMemes_loop draws subs allMemes st) =
  (λ subreddit, (subreddit, 10)) <$> subs.
Proof.
  revert allMemes st.
  induction subs as [|subreddit rest IH]; intros allMemes st;
    cbn [gather loadInitialMemes_loop run requests].
  - apply requests_settle.
  - rewrite fmap_cons. f_equal.
    destruct (net subreddit 10) as [d|]; [|apply IH].
    destruct (parseMemes (Some d) subreddit st) as [memes st1]. apply IH.
Qed.

Lemma shuffleArray_length {A} (draws : list nat) (array : list A) :
  length (shuffleArray draws array) = length array.
Proof. apply Permutation_length, shuffleArray_Permutation. Qed.

(** The end of the initial load when nothing was collected. *)
Lemma loadInitialMemes_finish_empty (draws : list nat) (st : MemeApp) :
  loadInitialMemes_finish draws [] st =
    (Ok tt,
     set_isLoading false
       (set_feed
          [ErrorMessage "No memes found. Please try again later."
             CallReloadFeed] st)).
Proof. done. Qed.

(** The end of the initial load when items were collected: a prefix of the
    first page of the shuffled items is shown, the whole page when every
    card can be built. *)
Lemma loadInitialMemes_finish_items (draws : list nat)
    (allMemes : list Item) (st : MemeApp) :
  allMemes ≠ [] →
  ∃ shown,
    shown `prefix_of` take (itemsPerPage st) (shuffleArray draws allMemes)
    ∧ (loadInitialMemes_finish draws allMemes st =
         (Ok tt, set_isLoading false (rendered shown (set_feed [] st)))
       ∧ shown = take (itemsPerPage st) (shuffleArray draws allMemes)
       ∨ (∃ e, loadInitialMemes_finish draws allMemes st =
                 (Throw e, rendered shown (set_feed [] st)))
         ∧ ¬ Forall (λ m, is_Some (upvotes m)) allMemes).
Proof.
  intros Hne. unfold loadInitialMemes_finish. unfold_js.
  assert (Hlen : (length (shuffleArray draws allMemes) =? 0) = false).
  { rewrite shuffleArray_length. apply Nat.eqb_neq. by destruct allMemes. }
  rewrite Hlen. cbn [itemsPerPage set_feed].
  set (page := take (itemsPerPage st) (shuffleArray draws allMemes)).
  destruct (forEach_renderMeme page (set_feed [] st))
    as (shown & Hpre & Hst & Hres).
  exists shown. split; [done|].
  destruct (forEach page renderMeme (set_feed [] st)) as [r st1].
  simpl in Hst, Hres. subst st1.
  destruct Hres as [[-> ->]|[[e ->] Hnot]]; [by left|right].
  split; [by exists e|].
  intros Hall. apply Hnot. subst page.
  rewrite Forall_forall in *. intros m Hm.
  apply Hall. rewrite <-(shuffleArray_Permutation draws).
  by apply (sublist_subseteq _ _
    (sublist_take (shuffleArray draws allMemes) (itemsPerPage st))).
Qed.


(** ** Reload *)

Lemma appendChild_skeletons (k n : nat) (st : MemeApp) :
  forEach (seq k n) (λ _, appendChild createSkeleton) st =
    (Ok tt, set_feed (feed st ++ replicate n SkeletonCard) st).
Proof.
  revert k st. induction n as [|n IH]; intros k st.
  - simpl. unfold_js. destruct st. unfold set_feed. simpl.
    by rewrite app_nil_r.
  - cbn [seq]. rewrite forEach_cons. unfold appendChild at 1. unfold_js.
    cbn [createSkeleton]. rewrite IH. unfold set_feed. simpl.
    by rewrite <-app_assoc.
Qed.

Lemma reset_session_state (st : MemeApp) :
  exec reset_session st =
    {| feed := replicate (itemsPerPage st) SkeletonCard;
       loadingIndicator := loadingIndicator st;
       endMessage := false;
       isLoading := isLoading st;
       hasMore := true;
       currentSubredditIndex := 0;
       seenIds := ∅;
       failedAttempts := 0;
       itemsPerPage := itemsPerPage st;
       sink := sink st |}.
Proof.
  unfold exec, reset_session, showSkeletons. unfold_js. cbn [itemsPerPage].
  simpl. by rewrite appendChild_skeletons.
Qed.

(** When the initial load completes without an exception, [isLoading] is
    false. *)
Lemma loadInitialMemes_finish_unlocks (draws : list nat)
    (allMemes : list Item) (st : MemeApp) :
  fst (loadInitialMemes_finish draws allMemes st) = Ok tt →
  isLoading (snd (loadInitialMemes_finish draws allMemes st)) = false.
Proof.
  destruct allMemes as [|m rest]; [done|].
  destruct (loadInitialMemes_finish_items draws (m :: rest) st)
    as (shown & _ & [[-> _]|[[e ->] _]]); done.
Qed.

(** C4, as the code has it.  When [reloadFeed] returns, the ledger is
    empty, the cursor and [failedAttempts] are 0, [hasMore] is true, the end
    message is hidden and the feed holds skeletons only; [isLoading] is
    true, because the initial load that [reloadFeed] starts is in flight
    at its first request, and it is false again once that load has
    completed; a record whose identifier was seen before the reload is
    normalized to an item again; the handler of the reload button does the
    same. *)
Theorem reloadFeed_resets (draws : list nat) (st : MemeApp) :
  let st' := state_of (reloadFeed draws st) in
  seenIds st' = ∅
  ∧ currentSubredditIndex st' = 0
  ∧ failedAttempts st' = 0
  ∧ hasMore st' = true
  ∧ isLoading st' = true
  ∧ endMessage st' = false
  ∧ feed st' = replicate (itemsPerPage st) SkeletonCard
  ∧ (∃ resume, reloadFeed draws st = AwaitFetch "ProgrammerHumor" 10 st' resume)
  ∧ (∀ net, requests net (reloadFeed draws st) =
            (λ subreddit, (subreddit, 10)) <$> subreddits)
  ∧ (∀ post, nsfw post = false →
       normalized (Some {| memes := Some [post] |}) st' = [mkItem post])
  ∧ (∀ net, fst (run net (reloadFeed draws st)) = Ok tt →
       isLoading (final net (reloadFeed draws st)) = false)
  ∧ reloadBtn_click draws st = reloadFeed draws st.
Proof.
  intros st'. subst st'. unfold reloadFeed, reloadBtn_click.
  rewrite reset_session_state. unfold loadInitialMemes.
  split_and!; try done.
  - by eexists.
  - intros net. apply requests_loadInitialMemes_loop.
  - intros post Hsafe. unfold normalized, parseMemes. simpl.
    rewrite bool_decide_eq_false_2 by set_solver. by rewrite Hsafe.
  - intros net. unfold final. rewrite run_loadInitialMemes_loop.
    apply loadInitialMemes_finish_unlocks.
Qed.

(** ** Deduplication across loads *)

Lemma prefix_is_sublist {A} (l1 l2 : list A) :
  l1 `prefix_of` l2 → l1 `sublist_of` l2.
Proof. intros [k ->]. by apply sublist_inserts_r. Qed.

(** One load hands to the feed only items that are new to the ledger it
    started with, no two with the same identifier. *)
Lemma run_load_sink (l : Load) (st : MemeApp) :
  ∃ new,
    sink (run_load l st) = sink st ++ new
    ∧ seenIds st ⊆ seenIds (run_load l st)
    ∧ NoDup (id <$> new)
    ∧ ∀ m, m ∈ new → (id m ∉ seenIds st) ∧ id m ∈ seenIds (run_load l st).
Proof.
  destruct l as [net draws|net]; cbn [run_load]; unfold final.
  - unfold loadInitialMemes. rewrite run_loadInitialMemes_loop.
    set (st1 := set_failedAttempts 0 (set_isLoading true st)).
    destruct (gather_spec net subreddits [] st1)
      as (extra & seen & Hg & Hsub & Hnd & Hnew).
    rewrite Hg. cbn [fst snd app].
    destruct extra as [|x extra'].
    { exists []. rewrite loadInitialMemes_finish_empty. simpl.
      rewrite app_nil_r. split_and!; [done|done|constructor|].
      intros m Hm. by apply elem_of_nil in Hm. }
    set (extra := x :: extra') in *.
    destruct (loadInitialMemes_finish_items draws extra (set_seenIds seen st1))
      as (shown & Hpre & Hfin); [done|].
    assert (Hshown : shown `sublist_of` shuffleArray draws extra).
    { etrans; [by apply prefix_is_sublist|apply sublist_take]. }
    exists shown.
    assert (Hst : sink (snd (loadInitialMemes_finish draws extra
                               (set_seenIds seen st1))) = sink st ++ shown
                  ∧ seenIds (snd (loadInitialMemes_finish draws extra
                               (set_seenIds seen st1))) = seen).
    { by destruct Hfin as [[-> _]|[[e ->] _]]. }
    destruct Hst as [-> ->]. split_and!; [done|done|..].
    + eapply sublist_NoDup; [|by apply fmap_sublist].
      by rewrite (shuffleArray_Permutation draws extra).
    + intros m Hm. apply Hnew.
      rewrite <-(shuffleArray_Permutation draws extra).
      by apply (sublist_subseteq _ _ Hshown).
  - unfold loadMore.
    destruct (isLoading st || negb (hasMore st)).
    { exists []. simpl. rewrite app_nil_r.
      split_and!; [done|done|constructor|].
      intros m Hm. by apply elem_of_nil in Hm. }
    cbn [run]. rewrite run_settle.
    set (st1 := set_loadingIndicator true (set_isLoading true st)).
    destruct (loadMore_resume_effect
      (default "undefined" (subreddits !! currentSubredditIndex st1))
      (net (default "undefined" (subreddits !! currentSubredditIndex st1))
         (itemsPerPage st1)) st1)
      as (kept & shown & Hall & Hnd & Hpre & Hsink & _ & Hseen).
    exists shown. rewrite Hsink, Hseen. cbn [st1 sink seenIds
      set_loadingIndicator set_isLoading].
    apply prefix_is_sublist in Hpre.
    split_and!; [done|set_solver|..].
    + eapply sublist_NoDup; [|by apply fmap_sublist].
      by rewrite id_mkItem.
    + intros m Hm. apply (sublist_subseteq _ _ Hpre) in Hm.
      apply list_elem_of_fmap in Hm as (r & -> & Hr).
      rewrite Forall_forall in Hall. destruct (Hall r Hr) as [_ Hfresh].
      change (id (mkItem r)) with (postLink r). split; [done|].
      apply elem_of_union_l, elem_of_list_to_set.
      by apply list_elem_of_fmap_2.
Qed.

(** Loads that follow one another, each run to its end before the next
    starts, initial or incremental, refused or executed, whatever the
    upstream answers: the items handed to the feed during the sequence
    have pairwise different identifiers, none of which was in [seenIds]
    when the sequence started, and all of which are in [seenIds]
    afterwards; [seenIds] only grows.  The loads of a session as the event
    loop interleaves them are the subject of [session_inv] below. *)
Theorem dedup_invariant (loads : list Load) (st : MemeApp) :
  ∃ new,
    sink (run_loads loads st) = sink st ++ new
    ∧ seenIds st ⊆ seenIds (run_loads loads st)
    ∧ NoDup (id <$> new)
    ∧ ∀ m, m ∈ new →
        (id m ∉ seenIds st) ∧ id m ∈ seenIds (run_loads loads st).
Proof.
  induction loads as [|l loads IH] using rev_ind.
  - exists []. simpl. rewrite app_nil_r. split_and!; [done|done|constructor|].
    intros m Hm. by apply elem_of_nil in Hm.
  - unfold run_loads in *. rewrite foldl_snoc.
    set (st1 := foldl (λ st l, run_load l st) st loads) in *.
    destruct IH as (new1 & Hsink1 & Hsub1 & Hnd1 & Hnew1).
    destruct (run_load_sink l st1) as (new2 & Hsink2 & Hsub2 & Hnd2 & Hnew2).
    exists (new1 ++ new2).
    rewrite Hsink2, Hsink1, <-app_assoc. split_and!; [done|set_solver|..].
    + rewrite fmap_app. apply NoDup_app. split_and!; [done| |done].
      intros x (m1 & -> & Hm1)%list_elem_of_fmap
               (m2 & Heq & Hm2)%list_elem_of_fmap.
      apply Hnew1 in Hm1 as [_ Hin]. apply Hnew2 in Hm2 as [Hout _].
      rewrite Heq in Hin. done.
    + intros m [Hm|Hm]%elem_of_app.
      * apply Hnew1 in Hm as [? ?]. split; [done|]. by apply Hsub2.
      * apply Hnew2 in Hm as [? ?]. split; [|done]. set_solver.
Qed.

(** While a load is in flight the trigger cannot start another one: a
    run in which the trigger fires at every [await] ends as the run
    without it. *)
Lemma loadInitialMemes_loop_triggered (net : string → nat → FetchResult)
    (draws : list nat) (subs : list string) (allMemes : list Item)
    (st : MemeApp) :
  isLoading st = true →
  run_triggered net (loadInitialMemes_loop draws subs allMemes st) =
  run net (loadInitialMemes_loop draws subs allMemes st).
Proof.
  revert allMemes st.
  induction subs as [|subreddit rest IH]; intros allMemes st Hbusy;
    cbn [loadInitialMemes_loop run run_triggered].
  - unfold settle. by destruct (loadInitialMemes_finish _ _ _).
  - rewrite viewportTrigger_refused by by left. cbn [state_of].
    destruct (net subreddit 10) as [d|]; [|by apply IH].
    destruct (parseMemes_kept (Some d) subreddit st) as (kept & -> & _).
    by apply IH.
Qed.

Lemma loads_do_not_overlap (net : string → nat → FetchResult)
    (draws : list nat) (st : MemeApp) :
  run_triggered net (loadInitialMemes draws st) =
    run net (loadInitialMemes draws st)
  ∧ run_triggered net (loadMore st) = run net (loadMore st).
Proof.
  split.
  - by apply loadInitialMemes_loop_triggered.
  - unfold loadMore. destruct (isLoading st || negb (hasMore st)); [done|].
    cbn [run run_triggered].
    rewrite viewportTrigger_refused by by left. cbn [state_of].
    unfold settle. by destruct (loadMore_resume _ _ _).
Qed.

(** ** [shuffleArray] and the reference shuffle *)

Lemma swap_same {A} (i : nat) (array : list A) : swap i i array = array.
Proof.
  unfold swap. destruct (array !! i) as [a|] eqn:Ha; [|done].
  by rewrite !(list_insert_id array i a).
Qed.

Lemma swap_app {A} (i j : nat) (l k : list A) :
  i < length l → j < length l → swap i j (l ++ k) = swap i j l ++ k.
Proof.
  intros Hi Hj. unfold swap. rewrite !lookup_app_l by done.
  destruct (lookup_lt_is_Some_2 l i Hi) as [ai ->].
  destruct (lookup_lt_is_Some_2 l j Hj) as [aj ->].
  rewrite (insert_app_l l k i) by done.
  by rewrite insert_app_l by (by rewrite length_insert).
Qed.

(** Membership in the draw sequences. *)
Lemma elem_of_all_draws_0 (draws : list nat) :
  draws ∈ all_draws 0 ↔ draws = [].
Proof. simpl. apply list_elem_of_singleton. Qed.

Lemma elem_of_all_draws_S (i : nat) (draws : list nat) :
  draws ∈ all_draws (S i) ↔
  ∃ j rest, draws = j :: rest ∧ j ≤ S i ∧ rest ∈ all_draws i.
Proof.
  cbn [all_draws]. rewrite list_elem_of_bind. split.
  - intros (j & (rest & -> & Hrest)%list_elem_of_fmap & Hj%elem_of_seq).
    exists j, rest. split_and!; [done|lia|done].
  - intros (j & rest & -> & Hj & Hrest). exists j. split.
    + apply list_elem_of_fmap. by exists rest.
    + apply elem_of_seq. lia.
Qed.

Lemma elem_of_reference_draws_S (n : nat) (draws : list nat) :
  draws ∈ reference_draws (S n) ↔
  ∃ j rest, draws = j :: rest ∧ j ≤ n ∧ rest ∈ reference_draws n.
Proof.
  cbn [reference_draws]. rewrite list_elem_of_bind. split.
  - intros (j & (rest & -> & Hrest)%list_elem_of_fmap & Hj%elem_of_seq).
    exists j, rest. split_and!; [done|lia|done].
  - intros (j & rest & -> & Hj & Hrest). exists j. split.
    + apply list_elem_of_fmap. by exists rest.
    + apply elem_of_seq. lia.
Qed.

(** The loop entered at [i] leaves everything beyond index [i] alone. *)
Lemma shuffle_loop_app {A} (i : nat) (draws : list nat) (l k : list A) :
  i < length l → draws ∈ all_draws i →
  shuffle_loop i draws (l ++ k) = shuffle_loop i draws l ++ k.
Proof.
  revert draws l. induction i as [|i IH]; intros draws l Hi Hd; [done|].
  apply elem_of_all_draws_S in Hd as (j & rest & -> & Hj & Hrest).
  cbn [shuffle_loop]. rewrite swap_app by lia.
  apply IH; [rewrite swap_length; lia|done].
Qed.

(** One iteration at the last index: the drawn element moves to the end
    and stays there. *)
Lemma shuffle_loop_last {A} (i j : nat) (draws : list nat) (array : list A)
    (x : A) :
  length array = S (S i) → array !! j = Some x → draws ∈ all_draws i →
  shuffle_loop (S i) (j :: draws) array =
    shuffle_loop i draws (take (S i) (swap (S i) j array)) ++ [x]
  ∧ take (S i) (swap (S i) j array) ++ [x] = swap (S i) j array.
Proof.
  intros Hlen Hj Hd.
  assert (Hj' : j < length array) by by eapply lookup_lt_Some.
  assert (Hlast : swap (S i) j array !! S i = Some x).
  { rewrite swap_lookup by lia. by rewrite decide_True. }
  assert (Hsplit : take (S i) (swap (S i) j array) ++ [x] = swap (S i) j array).
  { rewrite <-(take_S_r _ _ _ Hlast).
    apply take_ge. rewrite swap_length. lia. }
  split; [|done].
  cbn [shuffle_loop]. rewrite <-Hsplit at 1.
  apply shuffle_loop_app; [|done].
  rewrite length_take, swap_length. lia.
Qed.

(** Every arrangement of the array is reached by some sequence of
    draws. *)
Lemma shuffle_loop_reaches {A} (i : nat) (array p : list A) :
  length array = S i → p ≡ₚ array →
  ∃ draws, draws ∈ all_draws i ∧ shuffle_loop i draws array = p.
Proof.
  revert array p. induction i as [|i IH]; intros array p Hlen Hp.
  - exists []. split; [by apply elem_of_all_draws_0|]. simpl.
    destruct array as [|a [|??]]; try done.
    by apply Permutation_singleton_r in Hp.
  - assert (Hplen : length p = S (S i)) by by rewrite Hp.
    destruct (last p) as [y|] eqn:Hy; [|by destruct p using rev_ind;
      [|rewrite last_snoc in Hy]].
    apply last_Some in Hy as [p' ->].
    assert (Hin : y ∈ array) by (rewrite <-Hp; set_solver).
    apply list_elem_of_lookup in Hin as [j Hj].
    set (l := take (S i) (swap (S i) j array)).
    assert (Hsplit : l ++ [y] = swap (S i) j array).
    { subst l. rewrite <-(take_S_r _ (S i)).
      - apply take_ge. rewrite swap_length. lia.
      - rewrite swap_lookup; [by rewrite decide_True| lia |].
        by eapply lookup_lt_Some. }
    destruct (IH l p') as (draws & Hd & Hsh).
    { subst l. rewrite length_take, swap_length. lia. }
    { apply (Permutation_app_inv_r [y]).
      by rewrite Hsplit, swap_Permutation. }
    exists (j :: draws). split.
    + apply elem_of_all_draws_S. exists j, draws.
      apply lookup_lt_Some in Hj. split_and!; [done|lia|done].
    + destruct (shuffle_loop_last i j draws array y) as [-> _]; try done.
      fold l. by rewrite Hsh.
Qed.

(** With pairwise different elements, different draws give different
    arrangements. *)
Lemma shuffle_loop_inj {A} (i : nat) (array : list A) (d1 d2 : list nat) :
  length array = S i → NoDup array →
  d1 ∈ all_draws i → d2 ∈ all_draws i →
  shuffle_loop i d1 array = shuffle_loop i d2 array → d1 = d2.
Proof.
  revert array d1 d2.
  induction i as [|i IH]; intros array d1 d2 Hlen Hnd H1 H2 Heq.
  - apply elem_of_all_draws_0 in H1, H2. by subst.
  - apply elem_of_all_draws_S in H1 as (j1 & r1 & -> & Hj1 & Hr1).
    apply elem_of_all_draws_S in H2 as (j2 & r2 & -> & Hj2 & Hr2).
    destruct (lookup_lt_is_Some_2 array j1) as [x1 Hx1]; [lia|].
    destruct (lookup_lt_is_Some_2 array j2) as [x2 Hx2]; [lia|].
    destruct (shuffle_loop_last i j1 r1 array x1) as [E1 S1]; try done.
    destruct (shuffle_loop_last i j2 r2 array x2) as [E2 S2]; try done.
    rewrite E1, E2 in Heq. apply app_inj_tail in Heq as [Heq ->].
    assert (j1 = j2) as -> by by eapply NoDup_lookup.
    f_equal. apply (IH (take (S i) (swap (S i) j2 array))); try done.
    + rewrite length_take, swap_length. lia.
    + eapply sublist_NoDup; [|apply sublist_take].
      by rewrite swap_Permutation.
Qed.

Lemma length_bind_const {A B} (f : A → list B) (l : list A) (c : nat) :
  (∀ x, x ∈ l → length (f x) = c) → length (l ≫= f) = length l * c.
Proof.
  induction l as [|x l IH]; intros Hc; csimpl; [done|].
  rewrite length_app, Hc, IH; [done| |left].
  intros y Hy. apply Hc. by right.
Qed.

Lemma length_all_draws (i : nat) : length (all_draws i) = fact (S i).
Proof.
  induction i as [|i IH]; [done|].
  cbn [all_draws].
  rewrite (length_bind_const _ _ (fact (S i))), length_seq.
  - change (fact (S (S i))) with (fact (S i) + S i * fact (S i)). lia.
  - intros j _. by rewrite length_fmap.
Qed.

Lemma NoDup_all_draws (i : nat) : NoDup (all_draws i).
Proof.
  induction i as [|i IH]; [apply NoDup_singleton|].
  cbn [all_draws]. apply NoDup_bind.
  - intros j1 j2 draws _ _ (r1 & -> & _)%list_elem_of_fmap
      (r2 & [= -> _] & _)%list_elem_of_fmap. done.
  - intros j _. apply NoDup_fmap_2; [|done]. by intros ?? [= ->].
  - apply NoDup_seq.
Qed.

(** In a duplicate-free list, a property that exactly one element has
    selects one element. *)
Lemma length_filter_unique {A} (P : A → Prop) `{∀ x, Decision (P x)}
    (l : list A) (x : A) :
  NoDup l → x ∈ l → P x → (∀ y, y ∈ l → P y → y = x) →
  length (filter P l) = 1.
Proof.
  intros Hnd Hx HP Huniq.
  assert (Hperm : filter P l ≡ₚ [x]).
  { apply NoDup_Permutation; [by apply NoDup_filter|apply NoDup_singleton|].
    intros y. rewrite list_elem_of_filter, list_elem_of_singleton.
    split; [intros [? ?]; by apply Huniq|by intros ->]. }
  by rewrite Hperm.
Qed.

(** The reference loop with one more iteration, at index 0, does what the
    loop of [shuffleArray] does. *)
Lemma fisher_yates_loop_shuffle_loop {A} (i : nat) (draws : list nat)
    (array : list A) :
  draws ∈ reference_draws (S i) →
  fisher_yates_loop (S i) draws array = shuffle_loop i (take i draws) array
  ∧ take i draws ∈ all_draws i.
Proof.
  revert draws array. induction i as [|i IH]; intros draws array Hd.
  - apply elem_of_reference_draws_S in Hd as (j & rest & -> & Hj & Hrest).
    assert (j = 0) as -> by lia. simpl in Hrest.
    apply list_elem_of_singleton in Hrest as ->. simpl.
    split; [apply swap_same|by apply elem_of_all_draws_0].
  - apply elem_of_reference_draws_S in Hd as (j & rest & -> & Hj & Hrest).
    destruct (IH rest (swap (S i) j array) Hrest) as [Heq Hin].
    split; [exact Heq|].
    apply elem_of_all_draws_S. by exists j, (take i rest).
Qed.

Lemma shuffle_loop_fisher_yates_loop {A} (i : nat) (draws : list nat)
    (array : list A) :
  draws ∈ all_draws i →
  draws ++ [0] ∈ reference_draws (S i)
  ∧ fisher_yates_loop (S i) (draws ++ [0]) array = shuffle_loop i draws array.
Proof.
  revert draws array. induction i as [|i IH]; intros draws array Hd.
  - apply elem_of_all_draws_0 in Hd as ->. simpl.
    split; [apply list_elem_of_singleton; done|apply swap_same].
  - apply elem_of_all_draws_S in Hd as (j & rest & -> & Hj & Hrest).
    destruct (IH rest (swap (S i) j array) Hrest) as [Hin Heq].
    split; [|exact Heq].
    apply elem_of_reference_draws_S. by exists j, (rest ++ [0]).
Qed.

(** C8.  [shuffleArray] against the reference Fisher-Yates shuffle, whose
    loop runs from the last index to the first with a draw in [0, i] at
    index [i]: on every sequence of draws of the reference the two return
    the same array, the draw at index 0 being 0, and every sequence of
    draws of [shuffleArray] extends to one of the reference; the result is
    always a permutation of the input; there are [n!] sequences of draws
    for [n] elements, and when the elements are pairwise different each
    permutation of the input is the result of exactly one of them, so with
    independent uniform draws each permutation has probability [1/n!]. *)
Theorem shuffleArray_fisher_yates `{EqDecision A} (array : list A) :
  (∀ draws, draws ∈ reference_draws (length array) →
     fisher_yates draws array =
       shuffleArray (take (length array - 1) draws) array
     ∧ take (length array - 1) draws ∈ all_draws (length array - 1))
  ∧ (∀ draws, draws ∈ all_draws (length array - 1) → array ≠ [] →
       draws ++ [0] ∈ reference_draws (length array)
       ∧ fisher_yates (draws ++ [0]) array = shuffleArray draws array)
  ∧ (∀ draws, shuffleArray draws array ≡ₚ array)
  ∧ length (all_draws (length array - 1)) = fact (length array)
  ∧ (NoDup array → ∀ p, p ≡ₚ array → outcomes array p = 1).
Proof.
  unfold fisher_yates, shuffleArray, outcomes.
  destruct array as [|a array'] eqn:Harr.
  { simpl. split_and!; try done.
    - intros draws ->%list_elem_of_singleton. split; [done|].
      by apply list_elem_of_singleton.
    - intros _ p ->%Permutation_nil_r. done. }
  rewrite <-Harr. assert (Hlen : length array = S (length array')) by by subst.
  clear Harr. rewrite Hlen. cbn [Nat.sub]. rewrite Nat.sub_0_r.
  set (i := length array') in *.
  split_and!.
  - intros draws Hd. by apply fisher_yates_loop_shuffle_loop.
  - intros draws Hd _. by apply shuffle_loop_fisher_yates_loop.
  - intros draws. apply shuffle_loop_Permutation.
  - apply length_all_draws.
  - intros Hnd p Hp.
    destruct (shuffle_loop_reaches i array p Hlen Hp) as (draws & Hd & Hsh).
    assert (Hsa : ∀ d, shuffleArray d array = shuffle_loop i d array).
    { intros d. unfold shuffleArray. rewrite Hlen. cbn [Nat.sub].
      by rewrite Nat.sub_0_r. }
    apply (length_filter_unique _ _ draws);
      [apply NoDup_all_draws|done|by rewrite Hsa|].
    intros d2 Hd2 Hsh2. apply (shuffle_loop_inj i array); try done.
    by rewrite <-!Hsa, Hsh2, Hsa.
Qed.

(** ** The theme preference *)

(** After construction the [theme] key always holds a non-empty string. *)
Lemma theme_always_persisted (storage : option string)
    (matchMedia : option bool) (es : list Theme.Event) :
  Theme.truthy
    (Theme.localStorage
       (Theme.handle_all es (Theme.constructor storage matchMedia))) = true.
Proof.
  unfold Theme.handle_all.
  induction es as [|e es IH] using rev_ind.
  - simpl. unfold Theme.getInitialTheme.
    destruct storage as [s|]; simpl.
    + destruct (String.eqb s "") eqn:Hs; simpl; [|by rewrite Hs].
      by destruct matchMedia as [[]|].
    + by destruct matchMedia as [[]|].
  - rewrite foldl_snoc. destruct e as [|matches]; simpl.
    + unfold Theme.toggle. by case_match.
    + unfold Theme.systemThemeChanged. by rewrite IH.
Qed.

(** C9.  The listener for system color-scheme changes applies the new
    scheme only when the [theme] key is missing or empty; but the
    constructor already stores the theme it starts with, so in every
    state the manager reaches the listener changes nothing.  In
    particular, started with empty storage on a light system and with no
    click on the toggle, a change of the system to dark leaves the theme
    light. *)
Theorem system_change_never_applied :
  (∀ storage matchMedia es matches,
     let tm := Theme.handle_all es (Theme.constructor storage matchMedia) in
     Theme.systemThemeChanged matches tm = tm)
  ∧ (let tm := Theme.constructor None (Some true) in
     Theme.theme tm = "light"
     ∧ Theme.localStorage tm = Some "light"
     ∧ Theme.theme (Theme.systemThemeChanged true tm) = "light")
  ∧ (∀ tm matches,
       Theme.truthy (Theme.localStorage tm) = false →
       Theme.theme (Theme.systemThemeChanged matches tm) =
         if matches then "dark" else "light").
Proof.
  split_and!.
  - intros storage matchMedia es matches tm. subst tm.
    unfold Theme.systemThemeChanged at 1.
    by rewrite theme_always_persisted.
  - done.
  - intros tm matches Hempty. unfold Theme.systemThemeChanged.
    by rewrite Hempty.
Qed.

(** ** The theorems at sample inputs *)

(** Decide a closed proposition by evaluation. *)
Ltac by_evaluation :=
  match goal with
  | |- ?P => refine (@bool_decide_unpack P _ _); vm_compute; exact I
  end.

Lemma dedup_invariant_witness :
  NoDup (id <$> sink (run_loads Sample.loads Sample.idle)).
Proof.
  destruct (dedup_invariant Sample.loads Sample.idle)
    as (new & Hsink & _ & Hnd & _).
  rewrite Hsink. exact Hnd.
Defined.

Lemma exhaustion_after_three_witness :
  let st1 := loadMore_with None Sample.idle in
  let st2 := loadMore_with Sample.no_memes st1 in
  let st3 := loadMore_with (Sample.response [Sample.post_c]) st2 in
  (isLoading Sample.idle = false ∧ hasMore Sample.idle = true
   ∧ failedAttempts Sample.idle = 0)
  ∧ hasMore st3 = false ∧ endMessage st3 = true
  ∧ loadMore st3 = Settled (Ok tt) st3.
Proof.
  intros st1 st2 st3. split; [by split_and!|].
  destruct (exhaustion_after_three None Sample.no_memes
              (Sample.response [Sample.post_c]) Sample.idle)
    as (_ & _ & Hm & He & Hno & _);
    try (vm_compute; reflexivity).
  by split_and!.
Defined.

Lemma loadMore_guard_witness :
  (isLoading Sample.busy = true
   ∧ loadMore Sample.busy = Settled (Ok tt) Sample.busy)
  ∧ (isLoading Sample.idle = false ∧ hasMore Sample.idle = true
     ∧ ∃ request,
         requests Sample.offline (loadMore Sample.idle)
         ++ requests Sample.offline (loadMore Sample.busy) = [request]).
Proof.
  split.
  - split; [reflexivity|].
    apply (proj1 (loadMore_guard Sample.busy)). left. reflexivity.
  - split_and!; [reflexivity|reflexivity|].
    apply (proj2 (loadMore_guard Sample.idle) eq_refl eq_refl).
Defined.



Lemma failure_streak_accounting_witness :
  (isLoading Sample.idle = false ∧ hasMore Sample.idle = true)
  ∧ failedAttempts (loadMore_with Sample.no_memes Sample.idle) = 1
  ∧ failedAttempts
      (loadMore_with (Sample.response [Sample.post_a]) Sample.idle) = 0
  ∧ currentSubredditIndex
      (loadMore_with (Sample.response [Sample.post_a]) Sample.idle) = 1.
Proof.
  split; [by split|].
  destruct (failure_streak_accounting Sample.no_memes Sample.idle
              eq_refl eq_refl) as [Hempty _].
  destruct (Hempty eq_refl) as (_ & Hfailed & _).
  destruct (failure_streak_accounting (Sample.response [Sample.post_a])
              Sample.idle eq_refl eq_refl) as [_ Hitems].
  destruct Hitems as [Hreset Hcursor].
  - vm_compute. discriminate.
  - vm_compute. repeat constructor. by eexists.
  - split_and!; [exact Hfailed|exact Hreset|exact Hcursor].
Defined.

Lemma shuffleArray_fisher_yates_witness :
  NoDup [10; 20; 30]
  ∧ outcomes [10; 20; 30] [30; 10; 20] = 1
  ∧ fisher_yates [1; 0; 0] [10; 20; 30] = shuffleArray [1; 0] [10; 20; 30].
Proof.
  assert (Hnd : NoDup [10; 20; 30]).
  { do 3 (apply NoDup_cons_2; [set_solver|]). apply NoDup_nil_2. }
  destruct (shuffleArray_fisher_yates [10; 20; 30])
    as (Href & _ & _ & _ & Huniform).
  split_and!; [exact Hnd| |].
  - apply (Huniform Hnd).
    apply (Permutation_inj _ _). split; [reflexivity|].
    exists (λ k, match k with 0 => 2 | 1 => 0 | 2 => 1 | _ => k end).
    split.
    + intros [|[|[|k1]]] [|[|[|k2]]]; simpl; congruence.
    + by intros [|[|[|k]]].
  - apply (Href [1; 0; 0]). vm_compute.
    repeat first [apply list_elem_of_here | apply list_elem_of_further].
Defined.

Lemma loadMore_always_unlocks_witness :
  (isLoading Sample.idle = false ∧ hasMore Sample.idle = true)
  ∧ isLoading
      (loadMore_with (Sample.response [Sample.post_b]) Sample.idle) = false
  ∧ loadingIndicator
      (loadMore_with (Sample.response [Sample.post_b]) Sample.idle) = false.
Proof.
  split; [by split|].
  destruct (loadMore_always_unlocks (Sample.response [Sample.post_b])
              Sample.idle eq_refl eq_refl) as (_ & _ & Hl & Hi).
  by split.
Defined.

Lemma reloadFeed_resets_witness :
  seenIds (state_of (reloadFeed [] (run_loads Sample.loads Sample.idle))) = ∅
  ∧ normalized (Sample.response [Sample.post_a])
      (state_of (reloadFeed [] (run_loads Sample.loads Sample.idle))) =
    [mkItem Sample.post_a]
  ∧ isLoading
      (final Sample.first_only
         (reloadFeed [] (run_loads Sample.loads Sample.idle))) = false.
Proof.
  destruct (reloadFeed_resets [] (run_loads Sample.loads Sample.idle))
    as (Hseen & _ & _ & _ & _ & _ & _ & _ & _ & Hunseen & Hunlock & _).
  split_and!; [exact Hseen|by apply Hunseen|].
  apply Hunlock. vm_compute. reflexivity.
Defined.

(** C4, against the claim.  On return from [reloadFeed] the flag
    [isLoading] is true, not false; and when the load it started has
    completed and [isLoading] is false, [seenIds] is no longer empty. *)
Lemma reloadFeed_not_all_initial :
  isLoading (state_of (reloadFeed [] Sample.idle)) ≠ false
  ∧ isLoading (final Sample.first_only (reloadFeed [] Sample.idle)) = false
  ∧ seenIds (final Sample.first_only (reloadFeed [] Sample.idle)) ≠ ∅.
Proof.
  split_and!; [done|done|].
  intros Hempty.
  assert (Hin : "https://redd.it/a"
      ∈ seenIds (final Sample.first_only (reloadFeed [] Sample.idle))).
  { by_evaluation. }
  rewrite Hempty in Hin. set_solver.
Qed.

(** The paths of an executed [loadMore], at sample inputs: the [try]
    block throws on a record without its score, and the [catch] branch
    counts a failure without moving the cursor. *)
Example loadMore_exception_path :
  let st := loadMore_with (Sample.response [Sample.post_b]) Sample.idle in
  failedAttempts st = 1 ∧ currentSubredditIndex st = 0
  ∧ isLoading st = false ∧ feed st = []
  ∧ "https://redd.it/b" ∈ seenIds st.
Proof.
  by split_and!.
Qed.

Example loadMore_items_path :
  let st := loadMore_with (Sample.response [Sample.post_d; Sample.post_c])
              Sample.idle in
  failedAttempts st = 0 ∧ currentSubredditIndex st = 1
  ∧ isLoading st = false ∧ feed st = [MemeCard (mkItem Sample.post_d)].
Proof. by split_and!. Qed.

(** The scenario of the specification: three subreddits, a first page,
    then one incremental load from the first subreddit. *)
Example initial_then_more_requests :
  requests Sample.first_only (setup [] Sample.idle) =
    [("ProgrammerHumor", 10); ("programmingmemes", 10); ("codingmemes", 10)]
  ∧ requests Sample.offline
      (loadMore (final Sample.first_only (setup [] Sample.idle))) =
    [("ProgrammerHumor", 6)].
Proof. by split. Qed.

(** * Further properties of the code *)

(** ** Page size *)

(** [calculateItemsPerPage] stays between 6 and 20, grows with the height
    of the window, is 6 up to 1200 pixels (and for a height of 0 or less)
    and 20 above 4200 pixels. *)
Theorem calculateItemsPerPage_bounds (h1 h2 : Z) :
  6 ≤ calculateItemsPerPage h1 ≤ 20
  ∧ ((h1 ≤ h2)%Z → calculateItemsPerPage h1 ≤ calculateItemsPerPage h2)
  ∧ ((h1 ≤ 1200)%Z → calculateItemsPerPage h1 = 6)
  ∧ ((4200 < h1)%Z → calculateItemsPerPage h1 = 20).
Proof.
  unfold calculateItemsPerPage.
  pose proof (Z.div_mod (- h1) 600 ltac:(lia)) as E1.
  pose proof (Z.mod_pos_bound (- h1) 600 ltac:(lia)) as B1.
  pose proof (Z.div_mod (- h2) 600 ltac:(lia)) as E2.
  pose proof (Z.mod_pos_bound (- h2) 600 ltac:(lia)) as B2.
  set (q1 := (- h1 / 600)%Z) in *. set (q2 := (- h2 / 600)%Z) in *.
  pose proof (Z.div_mod (5 * - q1) 2 ltac:(lia)) as F1.
  pose proof (Z.mod_pos_bound (5 * - q1) 2 ltac:(lia)) as G1.
  pose proof (Z.div_mod (5 * - q2) 2 ltac:(lia)) as F2.
  pose proof (Z.mod_pos_bound (5 * - q2) 2 ltac:(lia)) as G2.
  split_and!; try lia.
Qed.

Lemma calculateItemsPerPage_bounds_witness :
  ((600 ≤ 5000)%Z ∧ (600 ≤ 1200)%Z ∧ (4200 < 5000)%Z)
  ∧ calculateItemsPerPage 600 ≤ calculateItemsPerPage 5000
  ∧ calculateItemsPerPage 600 = 6
  ∧ calculateItemsPerPage 5000 = 20.
Proof.
  split; [lia|].
  destruct (calculateItemsPerPage_bounds 600 5000) as (_ & Hmono & Hlow & _).
  destruct (calculateItemsPerPage_bounds 5000 5000) as (_ & _ & _ & Hhigh).
  split_and!; [apply Hmono; lia|apply Hlow; lia|apply Hhigh; lia].
Defined.

(** ** Incremental loads *)

(** The [forEach] over [renderMeme] stops at the first item without a
    score: the cards before it are in the feed, the exception leaves. *)
Lemma forEach_renderMeme_throws (array : list Item) (st : MemeApp) :
  ¬ Forall has_score array →
  ∃ shown bad rest,
    array = shown ++ bad :: rest
    ∧ Forall has_score shown
    ∧ upvotes bad = None
    ∧ forEach array renderMeme st = (Throw "TypeError", rendered shown st).
Proof.
  revert st. induction array as [|meme array IH]; intros st Hnot.
  - destruct Hnot. constructor.
  - rewrite forEach_cons. destruct (upvotes meme) as [n|] eqn:Hn.
    + rewrite renderMeme_Some by (by rewrite Hn).
      destruct (IH (rendered [meme] st))
        as (shown & bad & rest & -> & Hall & Hbad & ->).
      { intros Hall. apply Hnot. constructor; [|done].
        unfold has_score. by rewrite Hn. }
      exists (meme :: shown), bad, rest. split_and!; try done.
      * constructor; [|done]. unfold has_score. by rewrite Hn.
      * by rewrite (rendered_cons meme shown st).
    + rewrite renderMeme_None by done.
      exists [], meme, array. split_and!; try done.
      by rewrite rendered_nil.
Qed.

(** The resumption of [loadMore] when a card cannot be built: the [catch]
    branch counts a failure and nothing else of the [try] block runs. *)
Lemma loadMore_resume_throws (subreddit : string) (data : FetchResult)
    (st : MemeApp) :
  ¬ Forall has_score (normalized data st) →
  ∃ shown bad rest,
    normalized data st = shown ++ bad :: rest
    ∧ Forall has_score shown
    ∧ upvotes bad = None
    ∧ loadMore_resume subreddit data st =
        (Ok tt,
         set_loadingIndicator false
           (set_isLoading false
              (set_failedAttempts (S (failedAttempts st))
                 (rendered shown (snd (parseMemes data subreddit st)))))).
Proof.
  intros Hnot. unfold loadMore_resume, loadMore_try. unfold_js.
  destruct data as [d|]; [|destruct Hnot; constructor].
  rewrite <-(parseMemes_normalized (Some d) subreddit) in *.
  destruct (parseMemes_kept (Some d) subreddit st) as (kept & Heq & _).
  destruct (parseMemes (Some d) subreddit st) as [out st1].
  cbn [fst snd] in *.
  assert (Hlen : (0 <? length out) = true).
  { destruct out; [destruct Hnot; constructor|done]. }
  rewrite Hlen.
  destruct (forEach_renderMeme_throws out st1 Hnot)
    as (shown & bad & rest & -> & Hall & Hbad & ->).
  exists shown, bad, rest. split_and!; try done.
  simplify_eq. reflexivity.
Qed.

(** An executed incremental load whose items all have their score appends
    the card of every normalized item, in the order of the response, after
    what the feed held; the page size does not cut them. *)
Theorem loadMore_appends_all (data : FetchResult) (st : MemeApp) :
  isLoading st = false → hasMore st = true →
  Forall has_score (normalized data st) →
  feed (loadMore_with data st) =
    feed st ++ (MemeCard <$> normalized data st)
  ∧ sink (loadMore_with data st) = sink st ++ normalized data st
  ∧ seenIds (loadMore_with data st) =
      list_to_set (id <$> normalized data st) ∪ seenIds st.
Proof.
  intros Hl Hm Hall. rewrite loadMore_with_executed by done.
  set (st1 := set_loadingIndicator true (set_isLoading true st)).
  set (subreddit := default _ _).
  assert (Hn : normalized data st1 = normalized data st)
    by by apply normalized_seenIds.
  destruct (parseMemes_kept data subreddit st1) as (kept & Heq & _).
  assert (Hk : normalized data st = mkItem <$> kept).
  { rewrite <-Hn, <-(parseMemes_normalized data subreddit), Heq. done. }
  destruct (decide (normalized data st = [])) as [Hempty|Hne].
  - rewrite loadMore_resume_empty by by rewrite Hn.
    rewrite Hempty. simpl.
    destruct (maxFailedAttempts <=? S (failedAttempts st)); simpl;
      rewrite !app_nil_r, (left_id_L ∅ (∪)); done.
  - rewrite loadMore_resume_items by by rewrite Hn.
    rewrite Heq, Hn, Hk. simpl. by rewrite id_mkItem.
Qed.

Lemma loadMore_appends_all_witness :
  (isLoading Sample.idle = false ∧ hasMore Sample.idle = true)
  ∧ feed (loadMore_with (Sample.response [Sample.post_d; Sample.post_a])
            Sample.idle) =
    [MemeCard (mkItem Sample.post_d); MemeCard (mkItem Sample.post_a)].
Proof.
  split; [by split|].
  destruct (loadMore_appends_all
              (Sample.response [Sample.post_d; Sample.post_a]) Sample.idle)
    as (Hfeed & _); [reflexivity|reflexivity| |exact Hfeed].
  vm_compute. repeat constructor; by eexists.
Defined.

(** An executed incremental load in which a card cannot be built (a
    record without its score): the cards before it are appended, the
    [catch] branch adds one to [failedAttempts], and nothing else of the
    [try] block happens: the cursor stays, [hasMore] and the end message
    are untouched even when the count reaches the threshold; the
    identifiers of all normalized items, shown or not, are in the ledger;
    the load ends with [isLoading] false. *)
Theorem loadMore_catch_path (data : FetchResult) (st : MemeApp) :
  isLoading st = false → hasMore st = true →
  ¬ Forall has_score (normalized data st) →
  ∃ shown bad rest,
    normalized data st = shown ++ bad :: rest
    ∧ upvotes bad = None
    ∧ feed (loadMore_with data st) = feed st ++ (MemeCard <$> shown)
    ∧ failedAttempts (loadMore_with data st) = S (failedAttempts st)
    ∧ currentSubredditIndex (loadMore_with data st) =
        currentSubredditIndex st
    ∧ hasMore (loadMore_with data st) = true
    ∧ endMessage (loadMore_with data st) = endMessage st
    ∧ isLoading (loadMore_with data st) = false
    ∧ seenIds (loadMore_with data st) =
        list_to_set (id <$> normalized data st) ∪ seenIds st.
Proof.
  intros Hl Hm Hnot. rewrite loadMore_with_executed by done.
  set (st1 := set_loadingIndicator true (set_isLoading true st)).
  set (subreddit := default _ _).
  assert (Hn : normalized data st1 = normalized data st)
    by by apply normalized_seenIds.
  destruct (loadMore_resume_throws subreddit data st1)
    as (shown & bad & rest & Hsplit & _ & Hbad & ->); [by rewrite Hn|].
  exists shown, bad, rest. rewrite Hn in Hsplit.
  destruct (parseMemes_kept data subreddit st1) as (kept & Heq & _).
  assert (Hk : normalized data st = mkItem <$> kept).
  { rewrite <-Hn, <-(parseMemes_normalized data subreddit), Heq. done. }
  rewrite Heq. simpl. rewrite Hk, id_mkItem.
  split_and!; try done. by rewrite <-Hk.
Qed.

Lemma loadMore_catch_path_witness :
  (isLoading Sample.idle = false ∧ hasMore Sample.idle = true)
  ∧ failedAttempts
      (loadMore_with (Sample.response [Sample.post_d; Sample.post_b])
         Sample.idle) = 1
  ∧ currentSubredditIndex
      (loadMore_with (Sample.response [Sample.post_d; Sample.post_b])
         Sample.idle) = 0.
Proof.
  split; [by split|].
  destruct (loadMore_catch_path
              (Sample.response [Sample.post_d; Sample.post_b]) Sample.idle)
    as (shown & bad & rest & _ & _ & _ & Hfailed & Hcursor & _);
    [reflexivity|reflexivity| |by split].
  intros Hall. vm_compute in Hall.
  apply Forall_cons_1 in Hall as [_ Hall].
  apply Forall_cons_1 in Hall as [[n Hn] _]. discriminate.
Defined.

Lemma run_loads_cons (l : Load) (ls : list Load) (st : MemeApp) :
  run_loads (l :: ls) st = run_loads ls (run_load l st).
Proof. done. Qed.

(** A call of [loadMore] run to its end, in terms of the one fetch result
    it sees. *)
Lemma run_load_more (net : string → nat → FetchResult) (st : MemeApp) :
  run_load (MoreLoad net) st =
  loadMore_with
    (net (default "undefined" (subreddits !! currentSubredditIndex st))
       (itemsPerPage st)) st.
Proof.
  cbn [run_load]. unfold loadMore_with, final, loadMore.
  destruct (isLoading st || negb (hasMore st)); [done|].
  cbn [run]. by rewrite !run_settle.
Qed.

Lemma loadMore_with_refused (data : FetchResult) (st : MemeApp) :
  isLoading st = true ∨ hasMore st = false → loadMore_with data st = st.
Proof.
  intros Hguard. unfold loadMore_with, final.
  by rewrite loadMore_refused.
Qed.

(** Once [hasMore] is false, or while [isLoading] is stuck at true, calls
    of [loadMore] and firings of the viewport trigger, however many and
    whatever the upstream would answer, issue no request and leave the
    whole state as it is: only a reload leaves that state. *)
Theorem refused_loads_change_nothing
    (nets : list (string → nat → FetchResult)) (st : MemeApp) :
  isLoading st = true ∨ hasMore st = false →
  run_loads (more_loads nets) st = st
  ∧ (∀ net, requests net (loadMore st) = [])
  ∧ ∀ net fired, run net (viewportTrigger fired st) = (Ok tt, st).
Proof.
  intros Hguard. split_and!.
  - induction nets as [|net nets IH]; [done|].
    unfold more_loads in *. rewrite fmap_cons, run_loads_cons.
    by rewrite run_load_more, loadMore_with_refused.
  - intros net. by rewrite loadMore_refused.
  - intros net fired. by rewrite viewportTrigger_refused.
Qed.

Lemma refused_loads_change_nothing_witness :
  let st := run_loads Sample.loads Sample.idle in
  hasMore st = false
  ∧ run_loads (more_loads [Sample.first_only; Sample.offline]) st = st.
Proof.
  intros st.
  assert (Hm : hasMore st = false) by (vm_compute; reflexivity).
  split; [exact Hm|].
  apply (refused_loads_change_nothing _ st). by right.
Defined.

(** The cursor of an executed load stays or moves to the next index. *)
Lemma loadMore_with_cursor (data : FetchResult) (st : MemeApp) :
  currentSubredditIndex (loadMore_with data st) = currentSubredditIndex st
  ∨ currentSubredditIndex (loadMore_with data st) =
      (currentSubredditIndex st + 1) mod length subreddits.
Proof.
  destruct (isLoading st) eqn:Hl;
    [left; by rewrite loadMore_with_refused by by left|].
  destruct (hasMore st) eqn:Hm;
    [|left; by rewrite loadMore_with_refused by by right].
  rewrite loadMore_with_executed by done.
  set (st1 := set_loadingIndicator true (set_isLoading true st)).
  set (subreddit := default _ _).
  destruct (decide (Forall (λ m, is_Some (upvotes m)) (normalized data st1)))
    as [Hall|Hnot].
  - right. destruct (decide (normalized data st1 = [])) as [Hempty|Hne].
    + rewrite loadMore_resume_empty by done. simpl.
      by destruct (maxFailedAttempts <=? S (failedAttempts st)).
    + by rewrite loadMore_resume_items.
  - left.
    destruct (loadMore_resume_throws subreddit data st1 Hnot)
      as (shown & bad & rest & _ & _ & _ & ->).
    destruct (parseMemes_kept data subreddit st1) as (kept & -> & _). done.
Qed.

(** ** The initial load *)

(** The initial load run to its end: its loop touches the ledger only,
    collects items that are new to the ledger and pairwise different, and
    hands them to the final part. *)
Lemma loadInitialMemes_outcome (net : string → nat → FetchResult)
    (draws : list nat) (st : MemeApp) :
  ∃ seen,
    run net (loadInitialMemes draws st) =
      loadInitialMemes_finish draws (allMemes_of net st)
        (set_seenIds seen (set_failedAttempts 0 (set_isLoading true st)))
    ∧ seenIds st ⊆ seen
    ∧ NoDup (id <$> allMemes_of net st)
    ∧ ∀ m, m ∈ allMemes_of net st → (id m ∉ seenIds st) ∧ id m ∈ seen.
Proof.
  unfold loadInitialMemes, allMemes_of.
  rewrite run_loadInitialMemes_loop.
  destruct (gather_spec net subreddits []
    (set_failedAttempts 0 (set_isLoading true st)))
    as (extra & seen & Hg & Hsub & Hnd & Hnew).
  rewrite Hg. exists seen. by split_and!.
Qed.

(** The final part when every card of the first page can be built. *)
Lemma loadInitialMemes_finish_page (draws : list nat) (allMemes : list Item)
    (st : MemeApp) :
  allMemes ≠ [] →
  Forall has_score (take (itemsPerPage st) (shuffleArray draws allMemes)) →
  loadInitialMemes_finish draws allMemes st =
    (Ok tt,
     set_isLoading false
       (rendered (take (itemsPerPage st) (shuffleArray draws allMemes))
          (set_feed [] st))).
Proof.
  intros Hne Hall. unfold loadInitialMemes_finish. unfold_js.
  assert (Hlen : (length (shuffleArray draws allMemes) =? 0) = false).
  { rewrite shuffleArray_length. apply Nat.eqb_neq. by destruct allMemes. }
  rewrite Hlen. cbn [itemsPerPage set_feed].
  by rewrite forEach_renderMeme_ok.
Qed.

(** The final part when a card of the first page cannot be built: the
    exception leaves [loadInitialMemes], [isLoading] is not reset. *)
Lemma loadInitialMemes_finish_throws (draws : list nat)
    (allMemes : list Item) (st : MemeApp) :
  ¬ Forall has_score (take (itemsPerPage st) (shuffleArray draws allMemes)) →
  ∃ shown bad rest,
    take (itemsPerPage st) (shuffleArray draws allMemes) =
      shown ++ bad :: rest
    ∧ Forall has_score shown
    ∧ upvotes bad = None
    ∧ loadInitialMemes_finish draws allMemes st =
        (Throw "TypeError", rendered shown (set_feed [] st)).
Proof.
  intros Hnot. unfold loadInitialMemes_finish. unfold_js.
  assert (Hlen : (length (shuffleArray draws allMemes) =? 0) = false).
  { apply Nat.eqb_neq. intros Hz. apply Hnot.
    apply nil_length_inv in Hz. rewrite Hz, take_nil. constructor. }
  rewrite Hlen. cbn [itemsPerPage set_feed].
  destruct (forEach_renderMeme_throws _ (set_feed [] st) Hnot)
    as (shown & bad & rest & Hsplit & Hall & Hbad & ->).
  by exists shown, bad, rest.
Qed.

(** The three ways the initial load ends. *)
Lemma loadInitialMemes_cases (net : string → nat → FetchResult)
    (draws : list nat) (st : MemeApp) :
  ∃ seen,
    let st1 :=
      set_seenIds seen (set_failedAttempts 0 (set_isLoading true st)) in
    let page :=
      take (itemsPerPage st) (shuffleArray draws (allMemes_of net st)) in
    seenIds st ⊆ seen
    ∧ NoDup (id <$> allMemes_of net st)
    ∧ (∀ m, m ∈ allMemes_of net st → (id m ∉ seenIds st) ∧ id m ∈ seen)
    ∧ (allMemes_of net st = []
       ∧ run net (loadInitialMemes draws st) =
           (Ok tt,
            set_isLoading false
              (set_feed
                 [ErrorMessage "No memes found. Please try again later."
                    CallReloadFeed] st1))
       ∨ allMemes_of net st ≠ [] ∧ Forall has_score page
         ∧ run net (loadInitialMemes draws st) =
             (Ok tt, set_isLoading false (rendered page (set_feed [] st1)))
       ∨ ∃ shown bad rest,
           page = shown ++ bad :: rest
           ∧ Forall has_score shown
           ∧ upvotes bad = None
           ∧ run net (loadInitialMemes draws st) =
               (Throw "TypeError", rendered shown (set_feed [] st1))).
Proof.
  destruct (loadInitialMemes_outcome net draws st)
    as (seen & Hrun & Hsub & Hnd & Hnew).
  exists seen. intros st1 page. split_and!; try done.
  rewrite Hrun. fold st1.
  destruct (decide (allMemes_of net st = [])) as [Hempty|Hne].
  { left. split; [done|]. by rewrite Hempty. }
  right.
  destruct (decide (Forall (λ m, is_Some (upvotes m)) page)) as [Hall|Hnot].
  - left. split_and!; try done.
    by apply (loadInitialMemes_finish_page draws _ st1).
  - right. by apply (loadInitialMemes_finish_throws draws _ st1).
Qed.

(** The initial load issues one request for each subreddit, in the order
    of the list and for 10 items each, whatever the upstream answers and
    whatever the page size is: a failed request does not stop the
    loop. *)
Theorem initial_load_requests (net : string → nat → FetchResult)
    (draws : list nat) (st : MemeApp) :
  requests net (loadInitialMemes draws st) =
    [("ProgrammerHumor", 10); ("programmingmemes", 10); ("codingmemes", 10)]
  ∧ requests net (setup draws st) =
    [("ProgrammerHumor", 10); ("programmingmemes", 10); ("codingmemes", 10)].
Proof.
  unfold setup, loadInitialMemes.
  by rewrite !requests_loadInitialMemes_loop.
Qed.

(** When the initial load has collected items and every card of the first
    page can be built, the load completes and the feed is exactly the
    first [itemsPerPage] items of the shuffled array: as many cards as the
    smaller of the page size and the number of collected items, all of
    them collected items, with pairwise different identifiers. *)
Theorem initial_load_first_page (net : string → nat → FetchResult)
    (draws : list nat) (st : MemeApp) :
  let page :=
    take (itemsPerPage st) (shuffleArray draws (allMemes_of net st)) in
  let st' := final net (loadInitialMemes draws st) in
  allMemes_of net st ≠ [] → Forall has_score page →
  run net (loadInitialMemes draws st) = (Ok tt, st')
  ∧ feed st' = MemeCard <$> page
  ∧ sink st' = sink st ++ page
  ∧ length (feed st') = itemsPerPage st `min` length (allMemes_of net st)
  ∧ (∀ m, m ∈ page → m ∈ allMemes_of net st)
  ∧ NoDup (id <$> page)
  ∧ isLoading st' = false.
Proof.
  intros page st' Hne Hall. subst st'. unfold final.
  destruct (loadInitialMemes_cases net draws st)
    as (seen & _ & Hnd & _ & [[Hempty _]|[(_ & _ & ->)|Hthrow]]).
  - done.
  - fold page. simpl.
    assert (Hsub : page `sublist_of` shuffleArray draws (allMemes_of net st))
      by apply sublist_take.
    split_and!; try done.
    + rewrite length_fmap. unfold page.
      by rewrite length_take, shuffleArray_length.
    + intros m Hm. rewrite <-(shuffleArray_Permutation draws).
      by apply (sublist_subseteq _ _ Hsub).
    + eapply sublist_NoDup; [|by apply fmap_sublist].
      by rewrite (shuffleArray_Permutation draws).
  - destruct Hthrow as (shown & bad & rest & Hsplit & _ & Hbad & _).
    fold page in Hsplit. rewrite Hsplit in Hall.
    apply Forall_app in Hall as [_ Hall].
    apply Forall_cons_1 in Hall as [[n Hn] _]. congruence.
Qed.

Lemma initial_load_first_page_witness :
  allMemes_of Sample.first_only Sample.idle ≠ []
  ∧ feed (final Sample.first_only (loadInitialMemes [] Sample.idle)) =
      [MemeCard (mkItem Sample.post_a)].
Proof.
  assert (Hne : allMemes_of Sample.first_only Sample.idle ≠ [])
    by (vm_compute; discriminate).
  split; [exact Hne|].
  destruct (initial_load_first_page Sample.first_only [] Sample.idle)
    as (_ & Hfeed & _); [exact Hne| |exact Hfeed].
  vm_compute. repeat constructor; by eexists.
Defined.

(** However the initial load ends (first page, error card, or an
    exception while building a card), no loading skeleton is left in the
    feed. *)
Theorem no_skeleton_after_initial_load (net : string → nat → FetchResult)
    (draws : list nat) (st : MemeApp) :
  (SkeletonCard ∉ feed (final net (loadInitialMemes draws st)))
  ∧ (SkeletonCard ∉ feed (final net (setup draws st)))
  ∧ (SkeletonCard ∉ feed (final net (reloadFeed draws st))).
Proof.
  assert (Hgen : ∀ st0,
    SkeletonCard ∉ feed (final net (loadInitialMemes draws st0))).
  { intros st0. unfold final.
    destruct (loadInitialMemes_cases net draws st0)
      as (seen & _ & _ & _ & [[_ ->]|[(_ & _ & ->)|Hthrow]]).
    - simpl. by intros ?%list_elem_of_singleton.
    - simpl. by intros (m & ? & _)%list_elem_of_fmap.
    - destruct Hthrow as (shown & bad & rest & _ & _ & _ & ->). simpl.
      by intros (m & ? & _)%list_elem_of_fmap. }
  split_and!; apply Hgen.
Qed.




(** The cursor never leaves the list of subreddits: from an index in
    range, every sequence of loads leaves it in range, and a call of
    [loadMore] that passes the guard requests the subreddit under the
    cursor, for [itemsPerPage] items, and nothing else. *)
Theorem cursor_stays_in_range (loads : list Load) (st : MemeApp) :
  currentSubredditIndex st < length subreddits →
  let st' := run_loads loads st in
  currentSubredditIndex st' < length subreddits
  ∧ (isLoading st' = false → hasMore st' = true →
     ∃ subreddit,
       subreddits !! currentSubredditIndex st' = Some subreddit
       ∧ ∀ net, requests net (loadMore st') =
                [(subreddit, itemsPerPage st')]).
Proof.
  intros Hc st'.
  assert (Hc' : currentSubredditIndex st' < length subreddits).
  { subst st'. revert st Hc.
    induction loads as [|l loads IH]; intros st Hc; [done|].
    rewrite run_loads_cons. apply IH.
    destruct l as [net draws|net].
    - cbn [run_load]. unfold final.
      destruct (loadInitialMemes_cases net draws st)
        as (seen & _ & _ & _ & [[_ ->]|[(_ & _ & ->)|Hthrow]]); try done.
      by destruct Hthrow as (shown & bad & rest & _ & _ & _ & ->).
    - rewrite run_load_more.
      destruct (loadMore_with_cursor
        (net (default "undefined" (subreddits !! currentSubredditIndex st))
           (itemsPerPage st)) st) as [-> | ->]; [done|].
      apply Nat.mod_upper_bound. lia. }
  split; [done|].
  intros Hl Hm.
  destruct (lookup_lt_is_Some_2 subreddits _ Hc') as [subreddit Hsub].
  exists subreddit. split; [done|].
  intros net. rewrite loadMore_executed by done.
  cbn [requests]. rewrite requests_settle, Hsub. done.
Qed.

Lemma cursor_stays_in_range_witness :
  currentSubredditIndex Sample.idle < length subreddits
  ∧ currentSubredditIndex
      (run_loads Sample.loads Sample.idle) < length subreddits.
Proof.
  assert (Hc : currentSubredditIndex Sample.idle < length subreddits)
    by (vm_compute; lia).
  split; [exact Hc|].
  by destruct (cursor_stays_in_range Sample.loads Sample.idle Hc).
Defined.

Lemma calculateItemsPerPage_range (h : Z) :
  6 ≤ calculateItemsPerPage h ≤ 20.
Proof. unfold calculateItemsPerPage. lia. Qed.



(** ** Reload and recovery *)

(** The state a resumption of [loadMore] leaves when it runs in a state
    with no failure counted and [hasMore] true. *)
Lemma loadMore_resume_fresh (subreddit : string) (data : FetchResult)
    (st : MemeApp) :
  failedAttempts st = 0 → hasMore st = true →
  isLoading (snd (loadMore_resume subreddit data st)) = false
  ∧ hasMore (snd (loadMore_resume subreddit data st)) = true.
Proof.
  intros Hf Hm.
  destruct (decide (Forall (λ m, is_Some (upvotes m)) (normalized data st)))
    as [Hall|Hnot].
  - destruct (decide (normalized data st = [])) as [Hempty|Hne].
    + rewrite loadMore_resume_empty by done. rewrite Hf. by simpl.
    + rewrite loadMore_resume_items by done.
      destruct (parseMemes_kept data subreddit st) as (kept & -> & _). done.
  - destruct (loadMore_resume_throws subreddit data st Hnot)
      as (shown & bad & rest & _ & _ & _ & ->).
    destruct (parseMemes_kept data subreddit st) as (kept & -> & _). done.
Qed.

(** Nothing cancels a load in flight.  When the feed is reloaded while a
    call of [loadMore] awaits its fetch, [reloadFeed] starts the initial
    load and suspends with [isLoading] true; the old call, resumed with
    its fetch result, then sets [isLoading] to false although the initial
    load still awaits its first answer, so a further call of [loadMore]
    passes the guard and a second load is in flight beside it. *)
Theorem stale_load_unlocks_after_reload (data : FetchResult)
    (draws : list nat) (st : MemeApp) :
  isLoading st = false → hasMore st = true →
  let old := loadMore st in
  let reload := reloadFeed draws (state_of old) in
  let st' := state_of (resume_of old data (state_of reload)) in
  (∃ resume,
     reload = AwaitFetch "ProgrammerHumor" 10 (state_of reload) resume)
  ∧ isLoading (state_of reload) = true
  ∧ isLoading st' = false
  ∧ hasMore st' = true
  ∧ ∃ subreddit count resume,
      loadMore st' = AwaitFetch subreddit count (state_of (loadMore st')) resume.
Proof.
  intros Hl Hm old reload st'.
  assert (Hreload : ∃ resume,
    reload = AwaitFetch "ProgrammerHumor" 10 (state_of reload) resume).
  { subst reload. unfold reloadFeed. rewrite reset_session_state.
    by eexists. }
  assert (Hst : ∃ subreddit,
    st' = snd (loadMore_resume subreddit data (state_of reload))).
  { exists (default "undefined" (subreddits !! currentSubredditIndex st)).
    subst st' old. rewrite loadMore_executed by done. cbn [resume_of].
    unfold settle.
    by destruct (loadMore_resume _ data (state_of reload)). }
  destruct Hst as [subreddit Hst].
  destruct (loadMore_resume_fresh subreddit data (state_of reload))
    as [Hl' Hm'].
  { subst reload. unfold reloadFeed. by rewrite reset_session_state. }
  { subst reload. unfold reloadFeed. by rewrite reset_session_state. }
  rewrite <-Hst in Hl', Hm'.
  assert (Hbusy : isLoading (state_of reload) = true).
  { destruct Hreload as [resume Hreload]. unfold reload, reloadFeed.
    by rewrite reset_session_state. }
  split; [done|]. split; [done|]. split; [done|]. split; [done|].
  rewrite (loadMore_executed st') by done.
  do 3 eexists. reflexivity.
Qed.

Lemma stale_load_unlocks_after_reload_witness :
  (isLoading Sample.idle = false ∧ hasMore Sample.idle = true)
  ∧ isLoading
      (state_of
         (resume_of (loadMore Sample.idle) None
            (state_of (reloadFeed [] (state_of (loadMore Sample.idle))))))
    = false.
Proof.
  split; [by split|].
  by destruct (stale_load_unlocks_after_reload None [] Sample.idle
                 eq_refl eq_refl) as (_ & _ & Hl & _).
Defined.

(** ** Startup and an upstream that is down *)

Lemma showSkeletons_state (count : nat) (st : MemeApp) :
  showSkeletons count st =
    (Ok tt, set_feed (replicate count SkeletonCard) st).
Proof.
  unfold showSkeletons. unfold_js. by rewrite appendChild_skeletons.
Qed.

(** [showSkeletons] replaces whatever the feed holds by exactly [count]
    skeleton cards and touches nothing else.  At startup that gives
    between 6 and 20 skeletons, as many as the page size; when [setup]
    returns the initial load is in flight with [isLoading] true, and the
    viewport trigger is ignored until it ends. *)
Theorem startup_shows_skeletons (screenHeight : Z) (draws : list nat)
    (count : nat) (st : MemeApp) :
  showSkeletons count st =
    (Ok tt, set_feed (replicate count SkeletonCard) st)
  ∧ (let started := state_of (setup draws (constructor screenHeight)) in
     feed started = replicate (itemsPerPage started) SkeletonCard
     ∧ itemsPerPage started = calculateItemsPerPage screenHeight
     ∧ 6 ≤ length (feed started) ≤ 20
     ∧ isLoading started = true
     ∧ sink started = []
     ∧ ∀ fired, viewportTrigger fired started = Settled (Ok tt) started).
Proof.
  split; [apply showSkeletons_state|].
  intros started.
  assert (Hst : started =
    set_failedAttempts 0 (set_isLoading true
      (set_feed (replicate (calculateItemsPerPage screenHeight) SkeletonCard)
         (constructor screenHeight)))).
  { unfold started, setup, exec. by rewrite showSkeletons_state. }
  rewrite Hst.
  pose proof (calculateItemsPerPage_range screenHeight) as Hrange.
  split_and!; try done.
  - simpl. rewrite length_replicate. lia.
  - simpl. rewrite length_replicate. lia.
  - intros fired. apply viewportTrigger_refused. by left.
Qed.

Lemma gather_none (net : string → nat → FetchResult) (subs : list string)
    (allMemes : list Item) (st : MemeApp) :
  (∀ subreddit count, net subreddit count = None) →
  gather net subs allMemes st = (allMemes, st).
Proof.
  intros Hnone. induction subs as [|subreddit rest IH]; [done|].
  cbn [gather]. by rewrite Hnone.
Qed.

Lemma fetchMemes_unavailable (fetched : Res HttpResponse) :
  unavailable fetched → fetchMemes fetched = None.
Proof.
  destruct fetched as [response|e]; [|done]. simpl. by intros ->.
Qed.

(** An executed load whose fetch result is absent. *)
Lemma loadMore_with_None_fields (st : MemeApp) :
  isLoading st = false → hasMore st = true →
  let st' := loadMore_with None st in
  feed st' = feed st
  ∧ isLoading st' = false
  ∧ failedAttempts st' = S (failedAttempts st)
  ∧ hasMore st' = negb (maxFailedAttempts <=? S (failedAttempts st))
  ∧ endMessage st' =
      (if maxFailedAttempts <=? S (failedAttempts st) then true
       else endMessage st).
Proof.
  intros Hl Hm st'. subst st'. rewrite loadMore_with_empty by done. simpl.
  destruct (maxFailedAttempts <=? S (failedAttempts st)); simpl;
    by rewrite ?Hm.
Qed.

(** [fetchMemes] hands out data only from a response that is [ok] and
    whose body parses; a rejected fetch or a non-[ok] status gives [null].
    With an upstream that never answers [ok], startup ends with the error
    card alone in the feed and the engine idle with [hasMore] true; three
    scroll-triggered loads later the feed is declared ended: [hasMore] is
    false and the end message is shown, under the error card, which is
    still the only card. *)
Theorem upstream_unavailable
    (transport : string → nat → Res HttpResponse) (screenHeight : Z)
    (draws : list nat) :
  (∀ subreddit count, unavailable (transport subreddit count)) →
  let net := gateway transport in
  let st1 := final net (setup draws (constructor screenHeight)) in
  let st4 := run_loads (more_loads [net; net; net]) st1 in
  (∀ fetched d, fetchMemes fetched = Some d →
     ∃ response,
       fetched = Ok response ∧ ok response = true
       ∧ json response = Ok (Some d))
  ∧ feed st1 =
      [ErrorMessage "No memes found. Please try again later." CallReloadFeed]
  ∧ isLoading st1 = false ∧ hasMore st1 = true ∧ endMessage st1 = false
  ∧ feed st4 = feed st1
  ∧ failedAttempts st4 = 3
  ∧ hasMore st4 = false
  ∧ endMessage st4 = true
  ∧ isLoading st4 = false.
Proof.
  intros Hdown net st1 st4.
  assert (Hnone : ∀ subreddit count, net subreddit count = None).
  { intros subreddit count. by apply fetchMemes_unavailable. }
  split.
  { intros [response|e] d; [|done]. simpl.
    destruct (ok response) eqn:Hok; [|done]. simpl.
    destruct (json response) as [[d'|]|e] eqn:Hjson; try done.
    intros [= ->]. by exists response. }
  assert (Hst1 : st1 =
    set_isLoading false
      (set_feed
         [ErrorMessage "No memes found. Please try again later."
            CallReloadFeed]
         (set_failedAttempts 0 (set_isLoading true
            (constructor screenHeight))))).
  { unfold st1, final, setup, exec, loadInitialMemes.
    rewrite showSkeletons_state, run_loadInitialMemes_loop.
    by rewrite gather_none. }
  assert (Hstep : ∀ st, run_load (MoreLoad net) st = loadMore_with None st).
  { intros st. by rewrite run_load_more, Hnone. }
  assert (H1 : feed st1 =
      [ErrorMessage "No memes found. Please try again later." CallReloadFeed]
    ∧ isLoading st1 = false ∧ hasMore st1 = true ∧ endMessage st1 = false
    ∧ failedAttempts st1 = 0) by by rewrite Hst1.
  destruct H1 as (Hfeed1 & Hl1 & Hm1 & He1 & Hf1).
  unfold st4, more_loads.
  rewrite !fmap_cons, !run_loads_cons, fmap_nil, !Hstep.
  set (st2 := loadMore_with None st1).
  destruct (loadMore_with_None_fields st1 Hl1 Hm1)
    as (Hfeed2 & Hl2 & Hf2 & Hm2 & He2).
  fold st2 in Hfeed2, Hl2, Hf2, Hm2, He2. rewrite Hf1 in Hf2, Hm2, He2.
  set (st3 := loadMore_with None st2).
  destruct (loadMore_with_None_fields st2 Hl2 Hm2)
    as (Hfeed3 & Hl3 & Hf3 & Hm3 & He3).
  fold st3 in Hfeed3, Hl3, Hf3, Hm3, He3. rewrite Hf2 in Hf3, Hm3, He3.
  destruct (loadMore_with_None_fields st3 Hl3 Hm3)
    as (Hfeed4 & Hl4 & Hf4 & Hm4 & He4).
  rewrite Hf3 in Hf4, Hm4, He4.
  cbn [run_loads foldl].
  split_and!; try done.
  by rewrite Hfeed4, Hfeed3, Hfeed2.
Qed.

Lemma upstream_unavailable_witness :
  let transport : string → nat → Res HttpResponse :=
    λ subreddit _,
      if String.eqb subreddit "codingmemes" then Throw "NetworkError"
      else Ok {| ok := false; status := 503; json := Ok None |} in
  (∀ subreddit count, unavailable (transport subreddit count))
  ∧ hasMore
      (run_loads
         (more_loads
            [gateway transport; gateway transport; gateway transport])
         (final (gateway transport) (setup [] (constructor 800)))) = false.
Proof.
  intros transport.
  assert (Hdown : ∀ subreddit count, unavailable (transport subreddit count)).
  { intros subreddit count. unfold transport.
    by destruct (String.eqb subreddit "codingmemes"). }
  split; [exact Hdown|].
  by destruct (upstream_unavailable transport 800 [] Hdown)
    as (_ & _ & _ & _ & _ & _ & _ & Hm & _).
Defined.

(** ** The theme manager *)

Lemma theme_consistent (storage : option string) (matchMedia : option bool)
    (es : list Theme.Event) :
  let tm := Theme.handle_all es (Theme.constructor storage matchMedia) in
  Theme.localStorage tm = Some (Theme.theme tm)
  ∧ Theme.data_theme tm = Some (Theme.theme tm)
  ∧ Theme.metaThemeColor tm =
      Some (if String.eqb (Theme.theme tm) "dark"
            then "#161b22" else "#f6f8fa").
Proof.
  unfold Theme.handle_all.
  induction es as [|e es IH] using rev_ind; [done|].
  rewrite foldl_snoc. destruct e as [|matches]; [done|].
  cbn [Theme.handle]. unfold Theme.systemThemeChanged.
  by destruct (negb _).
Qed.

(** After construction and after every click and every system event, the
    stored preference, the [data-theme] attribute and the field [theme]
    hold the same string, and the [theme-color] meta has the color of
    that theme. *)
Theorem theme_stays_consistent (storage : option string)
    (matchMedia : option bool) (es : list Theme.Event) :
  let tm := Theme.handle_all es (Theme.constructor storage matchMedia) in
  Theme.localStorage tm = Some (Theme.theme tm)
  ∧ Theme.data_theme tm = Some (Theme.theme tm)
  ∧ Theme.metaThemeColor tm =
      Some (if String.eqb (Theme.theme tm) "dark"
            then "#161b22" else "#f6f8fa").
Proof. apply theme_consistent. Qed.

(** [toggle] knows two themes: from ["dark"] it goes to ["light"], from
    anything else, ["light"] or a string found in the storage, to
    ["dark"].  So after one toggle the theme alternates between the two,
    and two toggles give back the theme exactly when it was one of the
    two. *)
Theorem toggle_alternates (tm : Theme.ThemeManager) :
  (Theme.theme tm = "dark" → Theme.theme (Theme.toggle tm) = "light")
  ∧ (Theme.theme tm ≠ "dark" → Theme.theme (Theme.toggle tm) = "dark")
  ∧ Theme.theme (Theme.toggle (Theme.toggle (Theme.toggle tm))) =
      Theme.theme (Theme.toggle tm)
  ∧ (Theme.theme (Theme.toggle (Theme.toggle tm)) = Theme.theme tm ↔
     Theme.theme tm = "light" ∨ Theme.theme tm = "dark").
Proof.
  unfold Theme.toggle. cbn [Theme.theme Theme.applyTheme].
  destruct (String.eqb (Theme.theme tm) "dark") eqn:Hd.
  - apply String.eqb_eq in Hd. rewrite Hd. simpl.
    split_and!; try done. split; [by right|done].
  - apply String.eqb_neq in Hd. simpl.
    split_and!; try done.
    split; [intros Heq; by left|].
    intros [Heq | Heq]; [by rewrite Heq|by destruct Hd].
Qed.

Lemma toggle_alternates_witness :
  let tm := Theme.constructor (Some "sepia") None in
  Theme.theme tm ≠ "dark"
  ∧ Theme.theme (Theme.toggle tm) = "dark"
  ∧ Theme.theme (Theme.toggle (Theme.toggle tm)) ≠ Theme.theme tm.
Proof.
  intros tm.
  assert (Hne : Theme.theme tm ≠ "dark") by done.
  destruct (toggle_alternates tm) as (_ & Hdark & _ & Hback).
  split_and!; [done|by apply Hdark|].
  intros Heq. apply Hback in Heq as [Heq|Heq]; discriminate.
Defined.

(** The preference survives a restart: a manager constructed on the
    storage that an earlier one left is in the state the earlier one was
    in, whatever the system prefers by then. *)
Theorem theme_survives_restart (storage : option string)
    (matchMedia later : option bool) (es : list Theme.Event) :
  let tm := Theme.handle_all es (Theme.constructor storage matchMedia) in
  Theme.constructor (Theme.localStorage tm) later = tm.
Proof.
  intros tm.
  destruct (theme_consistent storage matchMedia es) as (Hs & Hd & Hc).
  pose proof (theme_always_persisted storage matchMedia es) as Ht.
  fold tm in Hs, Hd, Hc, Ht.
  destruct tm as [t s d c]. simpl in *. subst.
  unfold Theme.constructor, Theme.getInitialTheme, Theme.applyTheme.
  by rewrite Ht.
Qed.

(** The theme a manager starts with: a non-empty stored string is taken
    as it is, whatever it says; with no stored value, or an empty one, the
    theme is ["light"] when the system prefers light, and ["dark"]
    otherwise, also when [matchMedia] is missing.  Either way it is stored
    at once. *)
Theorem initial_theme (storage : option string) (matchMedia : option bool) :
  let tm := Theme.constructor storage matchMedia in
  (∀ saved, storage = Some saved → saved ≠ "" → Theme.theme tm = saved)
  ∧ (storage = None ∨ storage = Some "" →
     Theme.theme tm =
       match matchMedia with Some true => "light" | _ => "dark" end)
  ∧ Theme.localStorage tm = Some (Theme.theme tm).
Proof.
  intros tm. split_and!; [| |done].
  - intros saved -> Hne%String.eqb_neq. subst tm. simpl.
    unfold Theme.getInitialTheme. simpl. by rewrite Hne.
  - intros [-> | ->]; subst tm; simpl; by destruct matchMedia as [[]|].
Qed.

Lemma initial_theme_witness :
  Theme.theme (Theme.constructor (Some "sepia") (Some true)) = "sepia"
  ∧ Theme.theme (Theme.constructor (Some "") (Some true)) = "light"
  ∧ Theme.theme (Theme.constructor None None) = "dark".
Proof.
  split_and!.
  - by apply (proj1 (initial_theme (Some "sepia") (Some true)) "sepia").
  - apply (proj1 (proj2 (initial_theme (Some "") (Some true)))). by right.
  - apply (proj1 (proj2 (initial_theme None None))). by left.
Defined.

(** * Sessions in the event loop *)

(** What the final part of the initial load does to the sink and the
    ledger. *)
Lemma loadInitialMemes_finish_effect (draws : list nat)
    (allMemes : list Item) (st : MemeApp) :
  ∃ shown,
    shown `sublist_of` shuffleArray draws allMemes
    ∧ sink (snd (loadInitialMemes_finish draws allMemes st)) =
        sink st ++ shown
    ∧ seenIds (snd (loadInitialMemes_finish draws allMemes st)) = seenIds st.
Proof.
  destruct (decide (allMemes = [])) as [->|Hne].
  - exists []. rewrite loadInitialMemes_finish_empty. simpl.
    rewrite app_nil_r. by split_and!.
  - destruct (loadInitialMemes_finish_items draws allMemes st Hne)
      as (shown & Hpre & Hfin).
    exists shown. split.
    { etrans; [by apply prefix_is_sublist|apply sublist_take]. }
    by destruct Hfin as [[-> _]|[[e ->] _]].
Qed.

(** The fetch of a suspended initial load resolves: the loop goes on with
    what this round collected. *)
Lemma step_resolve_initial (draws : list nat) (subreddit : string)
    (rest : list string) (allMemes : list Item) (st0 st : MemeApp)
    (data : FetchResult) :
  step (Resolve 0 data)
    {| engine := st;
       inflight :=
         [loadInitialMemes_loop draws (subreddit :: rest) allMemes st0] |} =
  spawn
    (loadInitialMemes_loop draws rest
       (fst (gather (λ _ _, data) [subreddit] allMemes st))
       (snd (gather (λ _ _, data) [subreddit] allMemes st)))
    {| engine := st; inflight := [] |}.
Proof.
  cbn [step inflight engine lookup list_lookup loadInitialMemes_loop
       resume_of delete list_delete gather].
  destruct data as [d|]; [|done].
  by destruct (parseMemes (Some d) subreddit st).
Qed.

Lemma spawn_loadInitialMemes_loop (draws : list nat) (subs : list string)
    (allMemes : list Item) (st st0 : MemeApp) :
  spawn (loadInitialMemes_loop draws subs allMemes st)
    {| engine := st0; inflight := [] |} =
  match subs with
  | [] =>
      {| engine := snd (loadInitialMemes_finish draws allMemes st);
         inflight := [] |}
  | _ :: _ =>
      {| engine := st;
         inflight := [loadInitialMemes_loop draws subs allMemes st] |}
  end.
Proof.
  destruct subs as [|subreddit rest]; [|done].
  cbn [loadInitialMemes_loop]. unfold settle.
  by destruct (loadInitialMemes_finish draws allMemes st).
Qed.

(** Every event of a session keeps [session_inv]. *)
Lemma session_inv_step (seen0 : gset string) (sink0 : list Item)
    (e : Event) (w : World) :
  in_session e → session_inv seen0 sink0 w →
  session_inv seen0 sink0 (step e w).
Proof.
  destruct w as [st infl].
  intros He (new & Hsink & Hnd & Hsub & Hnew & Hinfl).
  cbn [engine inflight] in *.
  destruct e as [fired|h|draws|k data]; [| |done|].
  - (* the trigger *)
    cbn [step engine]. unfold viewportTrigger.
    destruct (fired && negb (isLoading st) && hasMore st) eqn:Hguard;
      [|by exists new].
    apply andb_true_iff in Hguard as [[_ Hl%negb_true_iff]%andb_true_iff Hm].
    rewrite loadMore_executed by done. cbn [spawn inflight].
    destruct Hinfl as [->|[[Hbusy _]|[Hbusy _]]]; try congruence.
    exists new. cbn [engine inflight]. split_and!; try done.
    right. left. split; [done|]. eexists. split; [done|].
    by do 3 eexists.
  - (* the resize listener *)
    by exists new.
  - (* a fetch resolves *)
    destruct Hinfl as [->|[(Hbusy & a & -> & Hmore)
                          |(Hbusy & a & allMemes & -> & Hinit & Hnda & Hall)]].
    + exists new. cbn [step inflight]. rewrite lookup_nil.
      split_and!; try done. by left.
    + destruct k as [|k].
      2:{ exists new. cbn [step inflight lookup list_lookup].
          rewrite ?lookup_nil. split_and!; try done.
          right; left. split; [done|]. by exists a. }
      destruct Hmore as (subreddit & count & st1 & ->).
      cbn [step inflight engine lookup list_lookup resume_of delete
           list_delete].
      destruct (loadMore_resume_effect subreddit data st)
        as (kept & shown & Hkept & Hndk & Hpre & Hs & _ & Hseen).
      unfold settle.
      destruct (loadMore_resume subreddit data st) as [r st'].
      cbn [spawn engine inflight snd] in *.
      apply prefix_is_sublist in Hpre.
      assert (Hshown : ∀ m, m ∈ shown →
        (id m ∉ seenIds st) ∧ id m ∈ seenIds st').
      { intros m Hm. apply (sublist_subseteq _ _ Hpre) in Hm.
        apply list_elem_of_fmap in Hm as (r0 & -> & Hr).
        rewrite Forall_forall in Hkept. destruct (Hkept r0 Hr) as [_ Hfresh].
        change (id (mkItem r0)) with (postLink r0). split; [done|].
        rewrite Hseen. apply elem_of_union_l, elem_of_list_to_set.
        by apply list_elem_of_fmap_2. }
      exists (new ++ shown). cbn [engine inflight].
      rewrite Hs, Hsink, <-app_assoc.
      split_and!; [done| |set_solver| |by left].
      * rewrite fmap_app. apply NoDup_app. split_and!; [done| |].
        -- intros x (m1 & -> & Hm1)%list_elem_of_fmap
             (m2 & Heq & Hm2)%list_elem_of_fmap.
           apply Hnew in Hm1 as [Hin _]. apply Hshown in Hm2 as [Hout _].
           by rewrite Heq in Hin.
        -- eapply sublist_NoDup; [|by apply fmap_sublist].
           by rewrite id_mkItem.
      * intros m [Hm|Hm]%elem_of_app.
        -- apply Hnew in Hm as [? ?]. split; [set_solver|done].
        -- apply Hshown in Hm as [? ?]. split; [done|set_solver].
    + destruct k as [|k].
      2:{ exists new. cbn [step inflight lookup list_lookup].
          rewrite ?lookup_nil. split_and!; try done.
          right; right. split; [done|]. by exists a, allMemes. }
      destruct Hinit as (draws & subreddit & rest & st0 & ->).
      rewrite step_resolve_initial.
      destruct (gather_spec (λ _ _, data) [subreddit] allMemes st)
        as (extra & seen & Hg & Hseen & Hnde & Hextra).
      rewrite Hg. cbn [fst snd]. rewrite spawn_loadInitialMemes_loop.
      assert (Hall' : NoDup (id <$> allMemes ++ extra)
        ∧ ∀ m, m ∈ allMemes ++ extra →
            id m ∈ seen ∧ (id m ∉ seen0) ∧ id m ∉ id <$> new).
      { split.
        - rewrite fmap_app. apply NoDup_app. split_and!; [done| |done].
          intros x (m1 & -> & Hm1)%list_elem_of_fmap
            (m2 & Heq & Hm2)%list_elem_of_fmap.
          apply Hall in Hm1 as (Hin & _). apply Hextra in Hm2 as [Hout _].
          by rewrite Heq in Hin.
        - intros m [Hm|Hm]%elem_of_app.
          + apply Hall in Hm as (? & ? & ?). split_and!; [set_solver|done..].
          + apply Hextra in Hm as [Hout Hin]. split_and!; [done|set_solver|].
            intros (m' & Heq & Hm')%list_elem_of_fmap.
            apply Hnew in Hm' as [Hin' _]. by rewrite <-Heq in Hin'. }
      destruct Hall' as [Hnd' Hall'].
      destruct rest as [|subreddit' rest'].
      * (* the loop is over: the first page is shown *)
        destruct (loadInitialMemes_finish_effect draws (allMemes ++ extra)
          (set_seenIds seen st)) as (shown & Hshown & Hs & Hse).
        assert (Hin : ∀ m, m ∈ shown → m ∈ allMemes ++ extra).
        { intros m Hm. rewrite <-(shuffleArray_Permutation draws).
          by apply (sublist_subseteq _ _ Hshown). }
        exists (new ++ shown). cbn [engine inflight].
        rewrite Hs, Hse. cbn [sink seenIds set_seenIds].
        rewrite Hsink, <-app_assoc.
        split_and!; [done| |set_solver| |by left].
        -- rewrite fmap_app. apply NoDup_app. split_and!; [done| |].
           ++ intros x Hx (m2 & -> & Hm2)%list_elem_of_fmap.
              apply Hin, Hall' in Hm2 as (_ & _ & Hout). done.
           ++ eapply sublist_NoDup; [|by apply fmap_sublist].
              by rewrite (shuffleArray_Permutation draws).
        -- intros m [Hm|Hm]%elem_of_app.
           ++ apply Hnew in Hm as [? ?]. split; [set_solver|done].
           ++ apply Hin, Hall' in Hm as (? & ? & _). done.
      * (* the loop awaits the next fetch *)
        exists new. cbn [engine inflight sink seenIds set_seenIds isLoading].
        split_and!; [done|done|set_solver| |].
        -- intros m Hm. apply Hnew in Hm as [? ?]. split; [set_solver|done].
        -- right. right. split; [done|].
           eexists _, (allMemes ++ extra). split_and!; try done.
           by do 4 eexists.
Qed.

Lemma session_inv_run (seen0 : gset string) (sink0 : list Item)
    (events : list Event) (w : World) :
  Forall in_session events → session_inv seen0 sink0 w →
  session_inv seen0 sink0 (run_events events w).
Proof.
  intros Hall. revert w.
  induction Hall as [|e events He _ IH]; intros w Hinv; [done|].
  apply IH. by apply session_inv_step.
Qed.

Lemma session_start_inv (w : World) :
  session_start w →
  session_inv (seenIds (engine w)) (sink (engine w)) w.
Proof.
  assert (Hnil : ∀ m : Item, m ∈ @nil Item → False)
    by (intros m Hm; by apply elem_of_nil in Hm).
  intros [h draws|draws st|st]; exists [];
    (split_and!; [by rewrite app_nil_r|constructor|done
                 |intros m Hm; by apply Hnil in Hm|]).
  - right. right. split; [done|].
    eexists _, []. split_and!; [done| |constructor|].
    + by do 4 eexists.
    + intros m Hm. by apply Hnil in Hm.
  - right. right. split; [done|].
    eexists _, []. split_and!; [done| |constructor|].
    + by do 4 eexists.
    + intros m Hm. by apply Hnil in Hm.
  - by left.
Qed.




(** C7, against the claim.  An executed incremental load that yields two
    normalized items, the second without its score: [failedAttempts] is
    not reset but incremented, and the cursor does not move. *)
Lemma failure_streak_not_reset :
  let data := Sample.response [Sample.post_d; Sample.post_b] in
  let st := loadMore_with data Sample.idle in
  (isLoading Sample.idle = false ∧ hasMore Sample.idle = true)
  ∧ length (normalized data Sample.idle) = 2
  ∧ failedAttempts Sample.idle = 0
  ∧ failedAttempts st = 1
  ∧ failedAttempts st ≠ 0
  ∧ currentSubredditIndex st = currentSubredditIndex Sample.idle
  ∧ currentSubredditIndex st ≠
      (currentSubredditIndex Sample.idle + 1) mod length subreddits.
Proof. by split_and!. Qed.

(** ** Further properties in the event loop *)

(** What the final part of the initial load leaves alone. *)
Lemma loadInitialMemes_finish_frame (draws : list nat)
    (allMemes : list Item) (st : MemeApp) :
  let st' := snd (loadInitialMemes_finish draws allMemes st) in
  hasMore st' = hasMore st
  ∧ failedAttempts st' = failedAttempts st
  ∧ currentSubredditIndex st' = currentSubredditIndex st
  ∧ endMessage st' = endMessage st
  ∧ itemsPerPage st' = itemsPerPage st.
Proof.
  intros st'. subst st'.
  destruct (decide (allMemes = [])) as [->|Hne].
  { by rewrite loadInitialMemes_finish_empty. }
  destruct (loadInitialMemes_finish_items draws allMemes st Hne)
    as (shown & _ & [[-> _]|[[e ->] _]]); done.
Qed.

Lemma run_events_app (es1 es2 : list Event) (w : World) :
  run_events (es1 ++ es2) w = run_events es2 (run_events es1 w).
Proof. apply foldl_app. Qed.

Lemma set_itemsPerPage_same (st : MemeApp) :
  set_itemsPerPage (itemsPerPage st) st = st.
Proof. by destruct st. Qed.

(** While a call is suspended with [isLoading] true, triggers are refused
    and a resize writes [itemsPerPage]: nothing else changes. *)
Lemma between_fetches_run (noise : list Event) (st : MemeApp) (a : Async) :
  Forall between_fetches noise → isLoading st = true →
  ∃ n,
    run_events noise {| engine := st; inflight := [a] |} =
      {| engine := set_itemsPerPage n st; inflight := [a] |}.
Proof.
  intros Hnoise. revert st.
  induction Hnoise as [|e noise He _ IH]; intros st Hbusy.
  - exists (itemsPerPage st). by rewrite set_itemsPerPage_same.
  - destruct e as [fired|h|draws|k data]; try done.
    + change (run_events (Trigger fired :: noise) ?w)
        with (run_events noise (step (Trigger fired) w)).
      cbn [step engine]. rewrite viewportTrigger_refused by by left.
      cbn [spawn inflight]. by apply IH.
    + change (run_events (Resize h :: noise) ?w)
        with (run_events noise (step (Resize h) w)).
      cbn [step engine inflight].
      destruct (IH (onResize h st)) as [n Hn]; [done|].
      exists n. by rewrite Hn.
Qed.

(** Normalization does not read [itemsPerPage]. *)
Lemma parseMemes_set_itemsPerPage (data : FetchResult) (subreddit : string)
    (n : nat) (st : MemeApp) :
  parseMemes data subreddit (set_itemsPerPage n st) =
    (fst (parseMemes data subreddit st),
     set_itemsPerPage n (snd (parseMemes data subreddit st))).
Proof.
  unfold parseMemes. destruct data as [d|]; [|done].
  destruct (memes d) as [posts|]; [|done].
  cbn [seenIds set_itemsPerPage].
  by destruct (parseMemes_loop posts (seenIds st) []).
Qed.

Lemma gather_set_itemsPerPage (net : string → nat → FetchResult)
    (subs : list string) (allMemes : list Item) (n : nat) (st : MemeApp) :
  gather net subs allMemes (set_itemsPerPage n st) =
    (fst (gather net subs allMemes st),
     set_itemsPerPage n (snd (gather net subs allMemes st))).
Proof.
  revert allMemes st.
  induction subs as [|subreddit rest IH]; intros allMemes st;
    cbn [gather]; [done|].
  destruct (net subreddit 10) as [d|]; [|apply IH].
  rewrite parseMemes_set_itemsPerPage.
  destruct (parseMemes (Some d) subreddit st) as [memes st1].
  cbn [fst snd]. apply IH.
Qed.

Lemma gather_cons (net : string → nat → FetchResult) (subreddit : string)
    (rest : list string) (allMemes : list Item) (st : MemeApp) :
  gather net (subreddit :: rest) allMemes st =
    gather net rest (fst (gather net [subreddit] allMemes st))
      (snd (gather net [subreddit] allMemes st)).
Proof.
  cbn [gather]. destruct (net subreddit 10) as [d|]; [|done].
  by destruct (parseMemes (Some d) subreddit st).
Qed.

(** A click on the reload button while no call is suspended. *)
Lemma step_reload_idle (draws : list nat) (st : MemeApp) :
  step (Reload draws) {| engine := st; inflight := [] |} =
    let s0 := set_failedAttempts 0 (set_isLoading true
                (exec reset_session st)) in
    {| engine := s0;
       inflight :=
         [loadInitialMemes_loop draws
            ["ProgrammerHumor"; "programmingmemes"; "codingmemes"] [] s0] |}.
Proof. done. Qed.

(** One round of a suspended initial load: triggers and resizes, then the
    fetch resolving. *)
Lemma initial_round (noise : list Event) (draws : list nat)
    (subreddit : string) (rest : list string) (allMemes : list Item)
    (st0 st : MemeApp) (net : string → nat → FetchResult) :
  Forall between_fetches noise → isLoading st = true →
  ∃ n,
    run_events (noise ++ [Resolve 0 (net subreddit 10)])
      {| engine := st;
         inflight :=
           [loadInitialMemes_loop draws (subreddit :: rest) allMemes st0] |} =
    spawn
      (loadInitialMemes_loop draws rest
         (fst (gather net [subreddit] allMemes st))
         (set_itemsPerPage n (snd (gather net [subreddit] allMemes st))))
      {| engine := st; inflight := [] |}.
Proof.
  intros Hnoise Hbusy.
  destruct (between_fetches_run noise st
              (loadInitialMemes_loop draws (subreddit :: rest) allMemes st0)
              Hnoise Hbusy) as [n Hn].
  exists n. rewrite run_events_app, Hn.
  change (run_events [?e] ?w) with (step e w).
  rewrite step_resolve_initial.
  change (gather (λ _ _, net subreddit 10) [subreddit])
    with (gather net [subreddit]).
  rewrite gather_set_itemsPerPage. cbn [fst snd].
  by rewrite !spawn_loadInitialMemes_loop.
Qed.

(** An initial load from its first suspension to its end, whatever
    triggers and resizes come between its fetches: it collects what
    [gather] gives and ends in the state its final part leaves, up to the
    page size. *)
Lemma initial_load_events (net : string → nat → FetchResult)
    (draws : list nat) (noise1 noise2 noise3 : list Event) (s0 : MemeApp) :
  Forall between_fetches noise1 → Forall between_fetches noise2 →
  Forall between_fetches noise3 → isLoading s0 = true →
  ∃ n,
    run_events
      ((noise1 ++ [Resolve 0 (net "ProgrammerHumor" 10)])
       ++ (noise2 ++ [Resolve 0 (net "programmingmemes" 10)])
       ++ (noise3 ++ [Resolve 0 (net "codingmemes" 10)]))
      {| engine := s0;
         inflight :=
           [loadInitialMemes_loop draws
              ["ProgrammerHumor"; "programmingmemes"; "codingmemes"] []
              s0] |} =
    {| engine :=
         snd (loadInitialMemes_finish draws
                (fst (gather net subreddits [] s0))
                (set_itemsPerPage n (snd (gather net subreddits [] s0))));
       inflight := [] |}.
Proof.
  intros Hnoise1 Hnoise2 Hnoise3 Hbusy.
  unfold subreddits.
  rewrite (gather_cons net "ProgrammerHumor"
             ["programmingmemes"; "codingmemes"]),
          (gather_cons net "programmingmemes" ["codingmemes"]).
  destruct (gather_spec net ["ProgrammerHumor"] [] s0)
    as (e1 & seen1 & Hg1 & _).
  rewrite Hg1. cbn [fst snd].
  destruct (gather_spec net ["programmingmemes"] ([] ++ e1)
              (set_seenIds seen1 s0)) as (e2 & seen2 & Hg2 & _).
  rewrite Hg2. cbn [fst snd].
  destruct (gather_spec net ["codingmemes"] (([] ++ e1) ++ e2)
              (set_seenIds seen2 (set_seenIds seen1 s0)))
    as (e3 & seen3 & Hg3 & _).
  rewrite Hg3. cbn [fst snd].
  rewrite (run_events_app (noise1 ++ _)), (run_events_app (noise2 ++ _)).
  (* first fetch *)
  destruct (initial_round noise1 draws "ProgrammerHumor"
              ["programmingmemes"; "codingmemes"] [] s0 s0 net
              Hnoise1 Hbusy) as [k1 ->].
  rewrite Hg1, spawn_loadInitialMemes_loop. cbn [fst snd].
  (* second fetch *)
  destruct (initial_round noise2 draws "programmingmemes" ["codingmemes"]
              ([] ++ e1) (set_itemsPerPage k1 (set_seenIds seen1 s0))
              (set_itemsPerPage k1 (set_seenIds seen1 s0)) net
              Hnoise2 Hbusy) as [k2 ->].
  rewrite gather_set_itemsPerPage, Hg2, spawn_loadInitialMemes_loop.
  cbn [fst snd].
  (* third fetch *)
  destruct (initial_round noise3 draws "codingmemes" [] (([] ++ e1) ++ e2)
              (set_itemsPerPage k2
                 (set_itemsPerPage k1
                    (set_seenIds seen2 (set_seenIds seen1 s0))))
              (set_itemsPerPage k2
                 (set_itemsPerPage k1
                    (set_seenIds seen2 (set_seenIds seen1 s0)))) net
              Hnoise3 Hbusy) as [k3 ->].
  rewrite !gather_set_itemsPerPage, Hg3, spawn_loadInitialMemes_loop.
  cbn [fst snd].
  by exists k3.
Qed.

(** When an initial load, started with no call suspended, has run to its
    end, whatever triggers and resizes came between its fetches, no call is
    suspended and everything it collected is in the ledger; so in the rest
    of the session, whatever the order of triggers, resizes and fetches
    resolving, no item with the identifier of a collected one is handed to
    the feed: what the page size cut from the first page is never
    shown. *)
Theorem initial_items_never_shown_later
    (net : string → nat → FetchResult) (draws : list nat)
    (noise1 noise2 noise3 events : list Event) (st : MemeApp) (w0 : World) :
  inflight w0 = [] →
  Forall between_fetches noise1 → Forall between_fetches noise2 →
  Forall between_fetches noise3 → Forall in_session events →
  let w1 :=
    run_events
      ((noise1 ++ [Resolve 0 (net "ProgrammerHumor" 10)])
       ++ (noise2 ++ [Resolve 0 (net "programmingmemes" 10)])
       ++ (noise3 ++ [Resolve 0 (net "codingmemes" 10)]))
      (spawn (loadInitialMemes draws st) w0) in
  let w := run_events events w1 in
  inflight w1 = []
  ∧ (∀ m, m ∈ allMemes_of net st → id m ∈ seenIds (engine w1))
  ∧ ∃ new,
      sink (engine w) = sink (engine w1) ++ new
      ∧ ∀ m, m ∈ allMemes_of net st → id m ∉ id <$> new.
Proof.
  intros Hidle Hnoise1 Hnoise2 Hnoise3 Hevents w1 w.
  set (s0 := set_failedAttempts 0 (set_isLoading true st)).
  assert (Hw1 : ∃ n,
    w1 = {| engine :=
              snd (loadInitialMemes_finish draws (allMemes_of net st)
                     (set_itemsPerPage n (snd (gather net subreddits [] s0))));
            inflight := [] |}).
  { subst w1. destruct w0 as [st0 infl]. cbn [inflight] in Hidle. subst infl.
    unfold loadInitialMemes. rewrite spawn_loadInitialMemes_loop.
    by apply initial_load_events. }
  destruct Hw1 as [n Hw1]. clearbody w1. subst w1. subst w.
  destruct (gather_spec net subreddits [] s0)
    as (extra & seen & Hg & _ & _ & Hnew).
  change (allMemes_of net st) with (fst (gather net subreddits [] s0)).
  rewrite Hg. cbn [fst snd engine inflight app].
  destruct (loadInitialMemes_finish_effect draws extra
              (set_itemsPerPage n (set_seenIds seen s0)))
    as (shown & _ & _ & Hledger).
  set (st1 := snd (loadInitialMemes_finish draws extra _)) in *.
  assert (Hseen : ∀ m, m ∈ extra → id m ∈ seenIds st1).
  { intros m Hm. rewrite Hledger. by apply Hnew. }
  split_and!; [done|done|].
  destruct (session_inv_run _ _ events _ Hevents
              (session_start_inv _ (start_idle st1)))
    as (new & Hsink & _ & _ & Hlater & _).
  exists new. split; [done|].
  intros m Hm (m' & Heq & Hm')%list_elem_of_fmap.
  apply Hlater in Hm' as [_ Hout]. apply Hseen in Hm.
  cbn [engine] in Hout. by rewrite <-Heq in Hout.
Qed.

Lemma initial_items_never_shown_later_witness :
  let net := Sample.first_only in
  let during :=
    ([Trigger true] ++ [Resolve 0 (net "ProgrammerHumor" 10)])
    ++ ([Resize 3000] ++ [Resolve 0 (net "programmingmemes" 10)])
    ++ ([] ++ [Resolve 0 (net "codingmemes" 10)]) in
  let events :=
    [Trigger true;
     Resolve 0 (Sample.response [Sample.post_a; Sample.post_d])] in
  let w1 := run_events during (boot 800 []) in
  (Forall between_fetches [Trigger true]
   ∧ Forall between_fetches [Resize 3000]
   ∧ Forall in_session events)
  ∧ inflight w1 = []
  ∧ ∃ new,
      sink (engine (run_events events w1)) = sink (engine w1) ++ new
      ∧ "https://redd.it/a" ∉ id <$> new.
Proof.
  intros net during events w1.
  assert (Hnoise1 : Forall between_fetches [Trigger true])
    by (repeat constructor).
  assert (Hnoise2 : Forall between_fetches [Resize 3000])
    by (repeat constructor).
  assert (Hevents : Forall in_session events) by (repeat constructor).
  split; [by split_and!|].
  destruct (initial_items_never_shown_later net []
              [Trigger true] [Resize 3000] [] events
              (exec (showSkeletons (itemsPerPage (constructor 800)))
                 (constructor 800))
              {| engine := constructor 800; inflight := [] |}
              eq_refl Hnoise1 Hnoise2 (Forall_nil_2 _) Hevents)
    as (Hidle & _ & new & Hsink & Hnew).
  split; [exact Hidle|].
  exists new. split; [exact Hsink|].
  apply (Hnew (mkItem Sample.post_a)).
  vm_compute. left.
Defined.

(** [reloadFeed] recovers the engine from any state in which no call is
    suspended: exhausted, showing the error card, or stuck with
    [isLoading] true after an exception.  After the click and the three
    fetches of the load it starts, whatever triggers and resizes come
    between them, no call is suspended, and if that load ended without an
    exception, so that [isLoading] is false, then [hasMore] is true, the
    failure count and the cursor are 0, the end message is hidden, and the
    next trigger starts an incremental load that asks the first subreddit
    for [itemsPerPage] items. *)
Theorem reload_recovers (draws : list nat) (d1 d2 d3 : FetchResult)
    (noise1 noise2 noise3 : list Event) (st : MemeApp) :
  Forall between_fetches noise1 → Forall between_fetches noise2 →
  Forall between_fetches noise3 →
  let w :=
    run_events
      (Reload draws
       :: (noise1 ++ [Resolve 0 d1])
          ++ (noise2 ++ [Resolve 0 d2]) ++ (noise3 ++ [Resolve 0 d3]))
      {| engine := st; inflight := [] |} in
  inflight w = []
  ∧ (isLoading (engine w) = false →
     hasMore (engine w) = true
     ∧ failedAttempts (engine w) = 0
     ∧ currentSubredditIndex (engine w) = 0
     ∧ endMessage (engine w) = false
     ∧ ∃ st' resume,
         step (Trigger true) w =
           {| engine := st';
              inflight :=
                [AwaitFetch "ProgrammerHumor" (itemsPerPage (engine w)) st'
                   resume] |}).
Proof.
  intros Hnoise1 Hnoise2 Hnoise3 w. subst w.
  change (run_events (Reload draws :: ?es) ?w)
    with (run_events es (step (Reload draws) w)).
  rewrite step_reload_idle, reset_session_state. cbv zeta.
  match goal with
  | |- context [loadInitialMemes_loop _ _ _ ?s] => set (s0 := s)
  end.
  assert (Hs0 : isLoading s0 = true ∧ hasMore s0 = true
    ∧ failedAttempts s0 = 0 ∧ currentSubredditIndex s0 = 0
    ∧ endMessage s0 = false) by done.
  destruct Hs0 as (Hl0 & Hm0 & Hf0 & Hc0 & He0).
  clearbody s0.
  set (net := λ (subreddit : string) (_ : nat),
    if String.eqb subreddit "ProgrammerHumor" then d1
    else if String.eqb subreddit "programmingmemes" then d2 else d3).
  destruct (initial_load_events net draws noise1 noise2 noise3 s0
              Hnoise1 Hnoise2 Hnoise3 Hl0) as [n Hw].
  change (net "ProgrammerHumor" 10) with d1 in Hw.
  change (net "programmingmemes" 10) with d2 in Hw.
  change (net "codingmemes" 10) with d3 in Hw.
  rewrite Hw. clear Hw. cbn [inflight engine]. split; [done|].
  destruct (gather_spec net subreddits [] s0) as (extra & seen & -> & _).
  cbn [fst snd].
  set (s3 := set_itemsPerPage n (set_seenIds seen s0)).
  destruct (loadInitialMemes_finish_frame draws ([] ++ extra) s3)
    as (Hm & Hf & Hc & He & _).
  set (st' := snd (loadInitialMemes_finish draws _ s3)) in *.
  assert (Hs3 : hasMore s3 = hasMore s0
    ∧ failedAttempts s3 = failedAttempts s0
    ∧ currentSubredditIndex s3 = currentSubredditIndex s0
    ∧ endMessage s3 = endMessage s0) by done.
  destruct Hs3 as (Hm3 & Hf3 & Hc3 & He3).
  rewrite Hm3, Hm0 in Hm. rewrite Hf3, Hf0 in Hf. rewrite Hc3, Hc0 in Hc.
  rewrite He3, He0 in He.
  clearbody st'. intros Hl. split_and!; try done.
  cbn [step engine]. unfold viewportTrigger. rewrite Hl, Hm. cbn [andb negb].
  rewrite loadMore_executed by done.
  cbn [spawn inflight app]. rewrite Hc. by do 2 eexists.
Qed.

Lemma reload_recovers_witness :
  let st := run_loads Sample.loads Sample.idle in
  let w :=
    run_events
      (Reload []
       :: ([Trigger true] ++ [Resolve 0 (Sample.response [Sample.post_a])])
          ++ ([Resize 3000] ++ [Resolve 0 None]) ++ ([] ++ [Resolve 0 None]))
      {| engine := st; inflight := [] |} in
  (Forall between_fetches [Trigger true]
   ∧ Forall between_fetches [Resize 3000]
   ∧ hasMore st = false ∧ isLoading (engine w) = false)
  ∧ hasMore (engine w) = true
  ∧ currentSubredditIndex (engine w) = 0.
Proof.
  intros st w.
  assert (Hnoise1 : Forall between_fetches [Trigger true])
    by (repeat constructor).
  assert (Hnoise2 : Forall between_fetches [Resize 3000])
    by (repeat constructor).
  assert (Hl : isLoading (engine w) = false) by (vm_compute; reflexivity).
  split; [split_and!; [done|done|vm_compute; reflexivity|exact Hl]|].
  destruct (reload_recovers [] (Sample.response [Sample.post_a]) None None
              [Trigger true] [Resize 3000] [] st
              Hnoise1 Hnoise2 (Forall_nil_2 _))
    as [_ Hrec].
  destruct (Hrec Hl) as (Hm & _ & Hc & _). by split.
Defined.
